(** * ApiResolver: dependency-ordered instantiation of API factories

    A shallow embedding of
    [packages/backend-common/src/context/ApiResolver.ts] and of the types
    it uses from [types.ts], followed by the properties of [with] and
    [resolve].

    JavaScript objects that the code compares by reference or mutates are
    modelled through explicit stores:
    - the factory objects live in a read-only object table [objs], and a
      batch ([AnyApiFactory[]]) is a list of references into it, so that
      [queue.includes(factory)] is reference equality;
    - the [Map] objects live in a [store]; [new Map(...)] allocates a new
      location and [apis.set] updates the map stored at a location.

    The construction functions of the factories are functions of the
    object they receive: they neither throw nor touch a resolver.  The
    mutable local array [queue] of [with] is threaded through the
    placement functions; [with] itself is named [with_]. *)

From stdpp Require Import base option list gmap strings.
From Stdlib Require Import ZArith.

Local Open Scope string_scope.
Local Open Scope nat_scope.
Local Open Scope list_scope.

(** ** Values and references *)

(** Object references (addresses). *)
Definition loc := nat.

(** The values held by a resolver are [unknown] in the source.  The code
    only relies on the existence of [undefined], which [Map.get] returns
    for an absent key. *)
Class JsValue (V : Type) := undefined : V.

Section Types.
Context {V : Type}.

(** [ApiRef<T>]: [id] is the lookup key; [T] is the compile-time-only
    utility field, which no code of the resolver reads. *)
Record ApiRef := { id : string; T : V }.

(** [ApiFactory]: [deps] is a JavaScript object, kept as the list of its
    own enumerable properties in [Object.values] order; [factory] takes
    the object built by [mapValues]. *)
Record AnyApiFactory := {
  api : ApiRef;
  deps : list (string * ApiRef);
  factory : list (string * V) → V
}.
End Types.
Global Arguments ApiRef : clear implicits.
Global Arguments AnyApiFactory : clear implicits.

(** [class ApiResolver]: its only field is the reference to its [Map]. *)
Record ApiResolver := { apis : loc }.

(** ** Errors *)

(** The three [throw new Error(...)] sites of [with].  The constructors
    keep the values interpolated into the message. *)
Inductive Error :=
| DuplicateRegistration (i : string)
| MissingDependency (seen : list string) (dep : string)
| CircularDependency (seen : list string) (dep : string).

(** [Array.prototype.join]. *)
Fixpoint join (sep : string) (l : list string) : string :=
  match l with
  | [] => ""
  | [x] => x
  | x :: l' => x +:+ sep +:+ join sep l'
  end.

(** The message of the thrown [Error]. *)
Definition message (e : Error) : string :=
  match e with
  | DuplicateRegistration i => "API " +:+ i +:+ " was already registered"
  | MissingDependency seen dep =>
      "Could not resolve API dependency in chain, "
        +:+ join " -> " seen +:+ " -> " +:+ dep
  | CircularDependency seen dep =>
      "Circular API dependencies: " +:+ join " -> " seen +:+ " -> " +:+ dep
  end.

(** The chain of identifiers an error reports. *)
Definition chain (e : Error) : list string :=
  match e with
  | DuplicateRegistration i => [i]
  | MissingDependency seen dep => seen ++ [dep]
  | CircularDependency seen dep => seen ++ [dep]
  end.

(** Result of a call that may throw.  [OutOfFuel] is an artefact of the
    bounded recursion used to define [enqueueDepthFirst]; it is shown
    unreachable. *)
Inductive outcome (A : Type) :=
| Return (a : A)
| Throw (e : Error)
| OutOfFuel.
Global Arguments Return {A} a.
Global Arguments Throw {A} e.
Global Arguments OutOfFuel {A}.

(** The message of the error a call threw, if it threw. *)
Definition message_of {A} (o : outcome A) : option string :=
  match o with Throw e => Some (message e) | _ => None end.

(** The chain it reported. *)
Definition chain_of {A} (o : outcome A) : option (list string) :=
  match o with Throw e => Some (chain e) | _ => None end.

Definition is_Return {A} (o : outcome A) : bool :=
  match o with Return _ => true | _ => false end.

Definition is_Throw {A} (o : outcome A) : bool :=
  match o with Throw _ => true | _ => false end.

(** ** The store of [Map] objects *)

(** The store: the [Map] objects allocated so far, by address. *)
Abbreviation store V := (list (gmap string V)).

Section MapObjects.
Context `{JsValue V}.
Implicit Types (σ : store V).

(** [new Map(entries)] *)
Definition Map_new σ (init : gmap string V) : loc * store V :=
  (length σ, σ ++ [init]).

(** The contents of the map object at [m]. *)
Definition Map_contents σ (m : loc) : gmap string V := σ !!! m.

(** [m.has(k)] *)
Definition Map_has σ (m : loc) (k : string) : bool :=
  bool_decide (is_Some (Map_contents σ m !! k)).

(** [m.get(k)] *)
Definition Map_get σ (m : loc) (k : string) : V :=
  default undefined (Map_contents σ m !! k).

(** [m.set(k, v)] *)
Definition Map_set σ (m : loc) (k : string) (v : V) : store V :=
  <[m := <[k := v]> (Map_contents σ m)]> σ.
End MapObjects.

(** [Object.values(o)] and lodash's [mapValues(o, fn)] on an object kept as
    its property list. *)
Definition Object_values {A} (o : list (string * A)) : list A := o.*2.

Definition mapValues {A B} (o : list (string * A)) (fn : A → B)
  : list (string * B) :=
  (λ p, (p.1, fn p.2)) <$> o.

(** ** The resolver *)

Section Resolver.
Context `{JsValue V}.
(** The factory objects, by reference. *)
Variable objs : loc → AnyApiFactory V.

(** [factory.api.id] *)
Definition api_id (f : loc) : string := id (api (objs f)).

Section Enqueue.
(** What the closure [enqueueDepthFirst] captures: the copied map and
    the batch.  The captured [queue] array is threaded explicitly. *)
Variables (σ : store V) (apis : loc) (factories : list loc).

(** The [for (const depRef of Object.values(factory.deps))] loop; [rec]
    is the recursive call. *)
Fixpoint enqueueDeps
    (rec : loc → list string → list loc → outcome (list loc))
    (seen : list string) (ds : list (ApiRef V)) (queue : list loc)
  : outcome (list loc) :=
  match ds with
  | [] => Return queue
  | depRef :: ds' =>
      if bool_decide (id depRef ∈ seen) then
        Throw (CircularDependency seen (id depRef))
      else if negb (Map_has σ apis (id depRef)) then
        match find (λ f, bool_decide (api_id f = id depRef)) factories with
        | None => Throw (MissingDependency seen (id depRef))
        | Some depFactory =>
            match rec depFactory (seen ++ [id depRef]) queue with
            | Return queue' => enqueueDeps rec seen ds' queue'
            | r => r
            end
        end
      else enqueueDeps rec seen ds' queue
  end.

(** [function enqueueDepthFirst(factory, seen)]; [fuel] bounds the
    recursion depth. *)
Fixpoint enqueueDepthFirst (fuel : nat) (factory : loc)
    (seen : list string) (queue : list loc) : outcome (list loc) :=
  match fuel with
  | O => OutOfFuel
  | S fuel' =>
      match enqueueDeps (enqueueDepthFirst fuel') seen
              (Object_values (deps (objs factory))) queue with
      | Return queue' =>
          Return (if bool_decide (factory ∈ queue') then queue'
                  else queue' ++ [factory])
      | r => r
      end
  end.

(** The first [for (const factory of factories)] loop. *)
Fixpoint enqueueAll (fuel : nat) (fs : list loc) (queue : list loc)
  : outcome (list loc) :=
  match fs with
  | [] => Return queue
  | factory :: fs' =>
      if Map_has σ apis (api_id factory) then
        Throw (DuplicateRegistration (api_id factory))
      else
        match enqueueDepthFirst fuel factory [api_id factory] queue with
        | Return queue' => enqueueAll fuel fs' queue'
        | r => r
        end
  end.
End Enqueue.

(** One iteration of the second loop, [for (const factory of queue)]. *)
Definition instantiate (apis : loc) (σ : store V) (f : loc) : store V :=
  let dependencies :=
    mapValues (deps (objs f)) (λ ref, Map_get σ apis (id ref)) in
  Map_set σ apis (api_id f) (factory (objs f) dependencies).

(** [with(factories)], with the recursion depth of the placement bounded
    by [fuel]. *)
Definition with_fuel (fuel : nat) (this : ApiResolver)
    (factories : list loc) (σ : store V) : outcome ApiResolver * store V :=
  let '(apis, σ1) := Map_new σ (Map_contents σ this.(apis)) in
  match enqueueAll σ1 apis factories fuel factories [] with
  | Return queue =>
      (Return {| apis := apis |}, foldl (instantiate apis) σ1 queue)
  | Throw e => (Throw e, σ1)
  | OutOfFuel => (OutOfFuel, σ1)
  end.

(** [with(factories)]. *)
Definition with_ (this : ApiResolver) (factories : list loc) (σ : store V)
  : outcome ApiResolver * store V :=
  with_fuel (length factories) this factories σ.

(** [static empty()]: [new ApiResolver()], whose default argument is
    [new Map()]. *)
Definition empty (σ : store V) : ApiResolver * store V :=
  let '(m, σ') := Map_new σ ∅ in ({| apis := m |}, σ').

(** [static with(factories)]: [new ApiResolver().with(factories)]. *)
Definition with_static (factories : list loc) (σ : store V)
  : outcome ApiResolver * store V :=
  let '(r, σ') := empty σ in with_ r factories σ'.

(** [resolve(ref)] *)
Definition resolve (σ : store V) (this : ApiResolver) (ref : ApiRef V) : V :=
  Map_get σ this.(apis) (id ref).

(** The registry of a resolver: the contents of its map. *)
Definition registry (σ : store V) (this : ApiResolver) : gmap string V :=
  Map_contents σ this.(apis).
End Resolver.

(** ** RootContext

    [create], [withApi] and [resolveApi] of
    [packages/backend-common/src/context/RootContext.ts].  An abort
    signal is kept as the reference to its [AbortController]; the heap
    counts the controllers allocated so far.  [withAbort], [withTimeout]
    and [abortPromise] register event listeners and timers; they are not
    modelled. *)

(** [class RootContext] *)
Record RootContext := { abortSignal : loc; apiResolver : ApiResolver }.

(** The [options] of [create]: [{ apis?: ApiResolver }]. *)
Record CreateOptions := { options_apis : option ApiResolver }.

(** [AnyApiFactory | AnyApiFactory[]], the argument of [withApi]. *)
Inductive FactoryArg := One (f : loc) | Many (fs : list loc).

(** [[factory].flat()] *)
Definition flat (factory : FactoryArg) : list loc :=
  match factory with One f => [f] | Many fs => fs end.

(** The [Map] objects and the number of [AbortController] objects. *)
Record heap (V : Type) := { maps : store V; controllers : nat }.
Global Arguments maps {V} h.
Global Arguments controllers {V} h.

Section Context.
Context `{JsValue V}.
Variable objs : loc → AnyApiFactory V.

(** [static create(options?)] *)
Definition create (options : option CreateOptions) (h : heap V)
  : RootContext * heap V :=
  let signal := controllers h in
  match options ≫= options_apis with
  | Some apis =>
      ({| abortSignal := signal; apiResolver := apis |},
       {| maps := maps h; controllers := S (controllers h) |})
  | None =>
      let '(apis, σ) := empty (maps h) in
      ({| abortSignal := signal; apiResolver := apis |},
       {| maps := σ; controllers := S (controllers h) |})
  end.

(** [withApi(factory)] *)
Definition withApi (this : RootContext) (factory : FactoryArg) (h : heap V)
  : outcome RootContext * heap V :=
  let '(newResolver, σ) :=
    with_ objs this.(apiResolver) (flat factory) (maps h) in
  (match newResolver with
   | Return newResolver =>
       Return {| abortSignal := this.(abortSignal);
                 apiResolver := newResolver |}
   | Throw e => Throw e
   | OutOfFuel => OutOfFuel
   end,
   {| maps := σ; controllers := controllers h |}).

(** [resolveApi(ref)] *)
Definition resolveApi (this : RootContext) (ref : ApiRef V) (h : heap V) : V :=
  resolve (maps h) this.(apiResolver) ref.
End Context.

(** ** IdentityAwareFetchMiddleware

    [packages/core-app-api/src/apis/implementations/FetchApi/IdentityAwareFetchMiddleware.ts].
    The function that [apply(next)] returns is asynchronous: it reads
    [this.tokenFunction], awaits the token, and reads [this.headerName]
    when it resumes, so the state of the middleware may have changed in
    between.  Its run is therefore kept in two parts, around the [await].
    What it does in the end is the call of [next] whose promise it
    returns, or the rejection of its own promise: an exception thrown in
    the body of an asynchronous function, such as the [TypeError] of
    [new Request] or of [headers.set], rejects its promise. *)

(** [const DEFAULT_HEADER_NAME] *)
Definition DEFAULT_HEADER_NAME : string := "backstage-token".

Section FetchMiddleware.
(** The platform's [RequestInfo], [RequestInit] and [Request], the token
    functions and the reasons of rejected promises. *)
Context {RequestInfo RequestInit Request TokenFunction Reason : Type}.
(** [new Request(input, init)]: the request, or the [TypeError] thrown
    for an input or an init that the platform does not accept. *)
Variable Request_new : RequestInfo → option RequestInit → Reason + Request.
(** [request.headers.set(name, value)]: the request with the header set,
    or the [TypeError] thrown for an invalid header name or value. *)
Variable headers_set : Request → string → string → Reason + Request.
(** A [Request] passed as the [input] of a fetch function. *)
Variable Request_input : Request → RequestInfo.

(** The fields of [class IdentityAwareFetchMiddleware]. *)
Record IdentityAwareFetchMiddleware := {
  headerName : string;
  tokenFunction : option TokenFunction
}.

(** The field initialisers. *)
Definition middleware_new : IdentityAwareFetchMiddleware :=
  {| headerName := DEFAULT_HEADER_NAME; tokenFunction := None |}.

(** [setHeaderName(name)]; it returns [this]. *)
Definition setHeaderName (name : string) (this : IdentityAwareFetchMiddleware)
  : IdentityAwareFetchMiddleware :=
  {| headerName := name; tokenFunction := this.(tokenFunction) |}.

(** [setSignedIn(tokenFunction)] *)
Definition setSignedIn (tf : option TokenFunction)
    (this : IdentityAwareFetchMiddleware) : IdentityAwareFetchMiddleware :=
  {| headerName := this.(headerName); tokenFunction := tf |}.

(** [setSignedOut()] *)
Definition setSignedOut (this : IdentityAwareFetchMiddleware)
  : IdentityAwareFetchMiddleware :=
  {| headerName := this.(headerName); tokenFunction := None |}.

(** How the promise of [tokenFunction()] settles. *)
Inductive settled :=
| Fulfilled (token : option string)
| Rejected (reason : Reason).

(** What the returned function does in the end: [return next(input, init)]
    or the rejection of its promise. *)
Inductive fetched :=
| Next (input : RequestInfo) (init : option RequestInit)
| Rejects (reason : Reason).

(** The run up to the [await]: finished, or waiting for the promise of
    [tokenFunction()] with what remains to do. *)
Inductive fetching :=
| Finished (result : fetched)
| Awaiting (tokenFunction : TokenFunction)
    (resume : settled → IdentityAwareFetchMiddleware → fetched).

(** The function returned by [apply(next)], called with [input] and
    [init] when the middleware is in state [this]; [resume] is given the
    state of the middleware when the function resumes.  [next] is not
    called when the request cannot be built or the header cannot be set. *)
Definition apply (this : IdentityAwareFetchMiddleware)
    (input : RequestInfo) (init : option RequestInit) : fetching :=
  match this.(tokenFunction) with
  | None => Finished (Next input init)
  | Some tokenFunction =>
      Awaiting tokenFunction (λ token this',
        match token with
        | Rejected reason => Rejects reason
        | Fulfilled None => Next input init
        | Fulfilled (Some token) =>
            match Request_new input init with
            | inl thrown => Rejects thrown
            | inr request =>
                match headers_set request this'.(headerName) token with
                | inl thrown => Rejects thrown
                | inr request => Next (Request_input request) None
                end
            end
        end)
  end.

(** The calls that set the state of the middleware. *)
Inductive setter :=
| SetHeaderName (name : string)
| SetSignedIn (tf : option TokenFunction)
| SetSignedOut.

Definition call (this : IdentityAwareFetchMiddleware) (c : setter)
  : IdentityAwareFetchMiddleware :=
  match c with
  | SetHeaderName name => setHeaderName name this
  | SetSignedIn tf => setSignedIn tf this
  | SetSignedOut => setSignedOut this
  end.


(** The token functions given by a sequence of calls, in order; signing
    out gives none. *)
Definition token_functions (calls : list setter)
  : list (option TokenFunction) :=
  omap (λ c, match c with
             | SetSignedIn tf => Some tf
             | SetSignedOut => Some None
             | SetHeaderName _ => None
             end) calls.
End FetchMiddleware.

(** ** Fixtures: the factories of [ApiResolver.test.ts] *)

Module Fixtures.
(** The JavaScript values the test factories produce. *)
Inductive jsval := JUndefined | JNumber (n : Z) | JNaN.

#[export] Instance jsval_value : JsValue jsval := JUndefined.

#[export] Instance jsval_eq_dec : EqDecision jsval.
Proof. solve_decision. Defined.

(** Property read [o[k]], as done by the destructuring parameters. *)
Fixpoint prop (o : list (string * jsval)) (k : string) : jsval :=
  match o with
  | [] => JUndefined
  | (k', v) :: o' => if bool_decide (k' = k) then v else prop o' k
  end.

(** [x + y] on the values above. *)
Definition js_add (x y : jsval) : jsval :=
  match x, y with
  | JNumber a, JNumber b => JNumber (a + b)
  | _, _ => JNaN
  end.

Definition ref (i : string) : ApiRef jsval := {| id := i; T := JUndefined |}.

(** 'handles any arrangement of inputs' *)
Definition apiA : AnyApiFactory jsval :=
  {| api := ref "a"; deps := []; factory := λ _, JNumber 1 |}.
Definition apiB : AnyApiFactory jsval :=
  {| api := ref "b"; deps := [("ai", ref "a")];
     factory := λ d, js_add (prop d "ai") (JNumber 1) |}.
Definition apiC : AnyApiFactory jsval :=
  {| api := ref "c"; deps := [("bi", ref "b")];
     factory := λ d, js_add (prop d "bi") (JNumber 1) |}.
Definition apiD : AnyApiFactory jsval :=
  {| api := ref "d"; deps := [("bi", ref "b")];
     factory := λ d, js_add (prop d "bi") (JNumber 1) |}.
Definition apiE : AnyApiFactory jsval :=
  {| api := ref "e"; deps := [("ci", ref "c"); ("di", ref "d")];
     factory := λ d, js_add (prop d "ci") (prop d "di") |}.

(** 'rejects attempts to overwrite already registered things' *)
Definition apiA2 : AnyApiFactory jsval :=
  {| api := ref "a"; deps := []; factory := λ _, JNumber 2 |}.

(** 'rejects attempts to register dangling references' *)
Definition danglingB : AnyApiFactory jsval :=
  {| api := ref "b"; deps := [("ai", ref "a")]; factory := λ _, JNumber 2 |}.
Definition danglingC : AnyApiFactory jsval :=
  {| api := ref "c"; deps := [("missing", ref "missing")];
     factory := λ _, JUndefined |}.

(** 'rejects circular dependencies' *)
Definition circA : AnyApiFactory jsval :=
  {| api := ref "a"; deps := [("bi", ref "b")]; factory := λ _, JNumber 1 |}.
Definition circB : AnyApiFactory jsval :=
  {| api := ref "b"; deps := [("ai", ref "a")]; factory := λ _, JNumber 2 |}.

(** [circA] with a further dependency, which nothing resolves. *)
Definition circA_missing : AnyApiFactory jsval :=
  {| api := ref "a"; deps := [("mi", ref "missing"); ("bi", ref "b")];
     factory := λ _, JNumber 1 |}.

(** 'can register entries that have dependencies on already registered
    things' *)
Definition incrB : AnyApiFactory jsval :=
  {| api := ref "b"; deps := []; factory := λ _, JNumber 1 |}.
Definition incrA : AnyApiFactory jsval :=
  {| api := ref "a"; deps := [("bi", ref "b")];
     factory := λ d, js_add (prop d "bi") (JNumber 1) |}.

(** The factory objects of the tests, at addresses 0 to 12; any other
    address holds [apiA]. *)
Definition objects : loc → AnyApiFactory jsval :=
  λ f, default apiA
    ([apiA; apiB; apiC; apiD; apiE; apiA2; danglingB; danglingC;
      circA; circB; incrB; incrA; circA_missing] !! f).

(** The resolver made by [ApiResolver.empty()] in an empty store. *)
Definition no_maps : store jsval := [].
Definition resolver0 : ApiResolver := {| apis := 0 |}.
Definition store0 : store jsval := [∅].

(** The resolver made by [ApiResolver.with([apiA])] in an empty store. *)
Definition resolver_a : ApiResolver := {| apis := 1 |}.
Definition store_a : store jsval := [∅; {["a" := JNumber 1]}].

(** The values of the canonical computation for [apiA] to [apiE]. *)
Definition arrangement_values (i : string) : jsval :=
  if bool_decide (i = "a") then JNumber 1
  else if bool_decide (i = "b") then JNumber 2
  else if bool_decide (i = "c") then JNumber 3
  else if bool_decide (i = "d") then JNumber 3
  else if bool_decide (i = "e") then JNumber 6
  else JUndefined.

(** A topological numbering of their identifiers. *)
Definition arrangement_rank (i : string) : nat :=
  if bool_decide (i = "b") then 1
  else if bool_decide (i = "c") then 2
  else if bool_decide (i = "d") then 2
  else if bool_decide (i = "e") then 3
  else 0.
End Fixtures.

(** ** Fixtures for the context, the fetch middleware and cycles *)

Module MoreFixtures.
Import Fixtures.

(** A heap that holds the resolver made by [ApiResolver.with([apiA])]
    and one abort controller, and a context over them. *)
Definition heap_a : heap jsval := {| maps := store_a; controllers := 1 |}.
Definition context_a : RootContext :=
  {| abortSignal := 0; apiResolver := resolver_a |}.

(** The heap before anything is made. *)
Definition heap0 : heap jsval := {| maps := []; controllers := 0 |}.

(** Stand-ins for the platform's requests: a URL with its headers.  No
    request is made for the URL [http://] and no header is set under the
    empty name: both throw a [TypeError]. *)
Definition request : Type := string * list (string * string).
Inductive request_info := Url (u : string) | OfRequest (r : request).

Definition request_new (input : request_info)
    (init : option (list (string * string))) : string + request :=
  match input with
  | Url u =>
      if bool_decide (u = "http://") then inl "TypeError: Invalid URL"
      else inr (u, default [] init)
  | OfRequest r => inr (r.1, default r.2 init)
  end.

Definition request_headers_set (r : request) (name value : string)
  : string + request :=
  if bool_decide (name = "") then inl "TypeError: Invalid name"
  else inr (r.1, (name, value) :: filter (λ h, h.1 ≠ name) r.2).


End MoreFixtures.

(** ** Notions used to state the properties *)

Section Notions.
Context `{JsValue V}.
Variable objs : loc → AnyApiFactory V.

(** The identifiers a factory depends on, in [Object.values] order. *)
Definition dep_ids (f : loc) : list string :=
  id <$> Object_values (deps (objs f)).

(** The identifiers a batch produces. *)
Definition produced (batch : list loc) : list string :=
  api_id objs <$> batch.

(** A resolver that exists in the store. *)
Definition valid (σ : store V) (r : ApiResolver) : Prop :=
  r.(apis) < length σ.

Section Batch.
Variables (σ : store V) (r : ApiResolver) (batch : list loc).

Definition registered (i : string) : bool := Map_has σ r.(apis) i.

(** No factory of the batch produces an identifier that the resolver
    already holds. *)
Definition fresh : Prop :=
  ∀ f, f ∈ batch → registered (api_id objs f) = false.

(** Every dependency is held by the resolver or produced by the batch. *)
Definition satisfiable : Prop :=
  ∀ f d, f ∈ batch → d ∈ dep_ids f →
    registered d = true ∨ d ∈ produced batch.

(** The dependencies that the resolver does not hold already follow a
    topological numbering. *)
Definition acyclic : Prop :=
  ∃ rank : string → nat,
    ∀ f d, f ∈ batch → d ∈ dep_ids f → registered d = false →
      rank d < rank (api_id objs f).

(** [val] gives the values of the dependency-respecting computation:
    each factory's value is its construction function applied to the
    values of its dependencies, taken from the resolver when it holds
    them. *)
Definition canonical (val : string → V) : Prop :=
  ∀ f, f ∈ batch →
    val (api_id objs f) =
    factory (objs f)
      (mapValues (deps (objs f))
         (λ ref, if registered (id ref) then Map_get σ r.(apis) (id ref)
                 else val (id ref))).

(** [d] is a dependency of [f] that nothing can resolve. *)
Definition dangling (f : loc) (d : string) : Prop :=
  f ∈ batch ∧ d ∈ dep_ids f ∧ registered d = false ∧ d ∉ produced batch.

(** A chain of identifiers that starts at a factory of the batch and in
    which each next identifier is a dependency of a batch factory that
    produces the previous one. *)
Inductive dep_chain : list string → Prop :=
| dep_chain_start f :
    f ∈ batch → dep_chain [api_id objs f]
| dep_chain_step p f d :
    dep_chain (p ++ [api_id objs f]) → f ∈ batch → d ∈ dep_ids f →
    dep_chain ((p ++ [api_id objs f]) ++ [d]).
End Batch.

Section Placement.
(** What the placement closes over: the copied map and the batch. *)
Variables (σ : store V) (apis : loc) (factories : list loc).

(** The number of distinct identifiers the batch produces. *)
Definition distinct_ids : nat :=
  length (remove_dups (produced factories)).

(** The path [seen] never repeats an identifier and only holds
    identifiers that the batch produces. *)
Definition path_ok (seen : list string) : Prop :=
  NoDup seen ∧ ∀ s, s ∈ seen → s ∈ produced factories.

(** The dependencies of [f] are held by the resolver or produced by a
    factory that is in the queue [q] already. *)
Definition ready (q : list loc) (f : loc) : Prop :=
  ∀ d, d ∈ dep_ids f →
    Map_has σ apis d = true
    ∨ ∃ f', find (λ g, bool_decide (api_id objs g = d)) factories = Some f'
            ∧ f' ∈ q.

(** Queues in dependency order: each factory is appended once, is a
    factory of the batch with an identifier the resolver does not hold,
    and comes after the producers of its dependencies. *)
Inductive placed : list loc → Prop :=
| placed_nil : placed []
| placed_snoc q f :
    placed q → f ∉ q → f ∈ factories →
    Map_has σ apis (api_id objs f) = false →
    ready q f → placed (q ++ [f]).
End Placement.

(** [if (!queue.includes(factory)) queue.push(factory)] *)
Definition push (queue : list loc) (f : loc) : list loc :=
  if bool_decide (f ∈ queue) then queue else queue ++ [f].

(** One iteration of the instantiation loop on the contents of the map. *)
Definition instantiate_map (m : gmap string V) (f : loc) : gmap string V :=
  <[api_id objs f :=
      factory (objs f)
        (mapValues (deps (objs f)) (λ ref, default undefined (m !! id ref)))]> m.
End Notions.

(** ** Store lemmas *)

Section StoreFacts.
Context `{JsValue V}.
Variable objs : loc → AnyApiFactory V.
Implicit Types (σ : store V) (m : gmap string V) (queue : list loc).

Lemma Map_contents_new σ m : Map_contents (σ ++ [m]) (length σ) = m.
Proof. unfold Map_contents. by apply list_lookup_total_middle. Qed.

Lemma Map_contents_old σ m l :
  l < length σ → Map_contents (σ ++ [m]) l = Map_contents σ l.
Proof. intros Hl. unfold Map_contents. by apply lookup_total_app_l. Qed.

Lemma Map_has_new σ m k :
  Map_has (σ ++ [m]) (length σ) k = bool_decide (is_Some (m !! k)).
Proof. unfold Map_has. by rewrite Map_contents_new. Qed.

Lemma Map_has_true σ l k :
  Map_has σ l k = true ↔ is_Some (Map_contents σ l !! k).
Proof. unfold Map_has. by rewrite bool_decide_eq_true. Qed.

Lemma Map_has_false σ l k :
  Map_has σ l k = false ↔ Map_contents σ l !! k = None.
Proof.
  unfold Map_has. rewrite bool_decide_eq_false.
  by rewrite eq_None_not_Some.
Qed.

Lemma instantiate_new σ m f :
  instantiate objs (length σ) (σ ++ [m]) f = σ ++ [instantiate_map objs m f].
Proof.
  unfold instantiate, Map_set, Map_get, instantiate_map.
  rewrite Map_contents_new, insert_app_r_alt by lia.
  by rewrite Nat.sub_diag.
Qed.

Lemma foldl_instantiate_new queue σ m :
  foldl (instantiate objs (length σ)) (σ ++ [m]) queue
  = σ ++ [foldl (instantiate_map objs) m queue].
Proof.
  revert m. induction queue as [|f queue IH]; intros m; simpl; [done|].
  by rewrite instantiate_new, IH.
Qed.

(** [with] on the contents of the maps: the copy is allocated at the end
    of the store, and only the copy is written. *)
Lemma with_fuel_eq fuel r fs σ :
  with_fuel objs fuel r fs σ =
  match enqueueAll objs (σ ++ [registry σ r]) (length σ) fs fuel fs [] with
  | Return queue =>
      (Return {| apis := length σ |},
       σ ++ [foldl (instantiate_map objs) (registry σ r) queue])
  | Throw e => (Throw e, σ ++ [registry σ r])
  | OutOfFuel => (OutOfFuel, σ ++ [registry σ r])
  end.
Proof.
  unfold with_fuel, Map_new, registry.
  destruct (enqueueAll _ _ _ _ _ _ _); [|done..].
  by rewrite foldl_instantiate_new.
Qed.

Lemma registry_new σ m : registry (σ ++ [m]) {| apis := length σ |} = m.
Proof. apply Map_contents_new. Qed.

Lemma resolve_registry σ r (x : ApiRef V) :
  resolve σ r x = default undefined (registry σ r !! id x).
Proof. done. Qed.
End StoreFacts.

(** ** The placement phase *)

Section EnqueueFacts.
Context `{JsValue V}.
Variable objs : loc → AnyApiFactory V.
Variables (σ : store V) (apis : loc) (factories : list loc).
Implicit Types (f : loc) (d : string) (seen : list string)
  (ds : list (ApiRef V)) (q queue : list loc).

Local Abbreviation has := (Map_has σ apis).
Local Abbreviation producer d :=
  (find (λ f, bool_decide (api_id objs f = d)) factories).
Local Abbreviation deps_loop := (enqueueDeps objs σ apis factories).
Local Abbreviation place := (enqueueDepthFirst objs σ apis factories).
Local Abbreviation place_all := (enqueueAll objs σ apis factories).

Lemma producer_Some d f :
  producer d = Some f → f ∈ factories ∧ api_id objs f = d.
Proof.
  intros [Hin Hd]%find_some. rewrite list_elem_of_In.
  by apply bool_decide_eq_true in Hd.
Qed.

Lemma producer_None d : producer d = None → d ∉ produced objs factories.
Proof.
  intros Hnone (f & -> & Hf)%list_elem_of_fmap.
  apply list_elem_of_In in Hf.
  pose proof (find_none _ _ Hnone _ Hf) as Hd. simpl in Hd.
  by apply bool_decide_eq_false in Hd.
Qed.

Lemma producer_produced d :
  d ∈ produced objs factories → ∃ f, producer d = Some f.
Proof.
  intros Hd. destruct (producer d) as [f|] eqn:Hp; [by eexists|].
  by apply producer_None in Hp.
Qed.

Lemma place_S fuel f seen q :
  place (S fuel) f seen q =
  match deps_loop (place fuel) seen (Object_values (deps (objs f))) q with
  | Return q' => Return (if bool_decide (f ∈ q') then q' else q' ++ [f])
  | r => r
  end.
Proof. done. Qed.

(** *** Errors raised by the placement *)

Section ErrorRule.
Variable Inv : list string → loc → Prop.
Variable P : Error → Prop.
Hypothesis Hstep : ∀ seen f d f',
  Inv seen f → d ∈ dep_ids objs f → d ∉ seen → has d = false →
  producer d = Some f' → Inv (seen ++ [d]) f'.
Hypothesis Hcirc : ∀ seen f d,
  Inv seen f → d ∈ dep_ids objs f → d ∈ seen →
  P (CircularDependency seen d).
Hypothesis Hmiss : ∀ seen f d,
  Inv seen f → d ∈ dep_ids objs f → d ∉ seen → has d = false →
  producer d = None → P (MissingDependency seen d).

Lemma enqueueDeps_throw rec seen f ds q e :
  Inv seen f →
  (∀ d, d ∈ id <$> ds → d ∈ dep_ids objs f) →
  (∀ d f' q0 e0, Inv (seen ++ [d]) f' →
     rec f' (seen ++ [d]) q0 = Throw e0 → P e0) →
  deps_loop rec seen ds q = Throw e → P e.
Proof.
  intros HI Hds Hrec. revert q.
  induction ds as [|depRef ds IH]; intros q; simpl; [done|].
  assert (id depRef ∈ dep_ids objs f) as Hd
    by (apply Hds; rewrite fmap_cons; apply elem_of_cons; by left).
  assert (∀ d, d ∈ id <$> ds → d ∈ dep_ids objs f) as Hds'
    by (intros d Hin; apply Hds; rewrite fmap_cons;
        apply elem_of_cons; by right).
  case_bool_decide as Hseen.
  { intros [= <-]. by eapply Hcirc. }
  destruct (has (id depRef)) eqn:Hhas; simpl; [by apply IH|].
  destruct (producer (id depRef)) as [f'|] eqn:Hp.
  - destruct (rec f' (seen ++ [id depRef]) q) as [q'|e'|] eqn:Hr.
    + by apply IH.
    + intros [= <-]. eapply Hrec; [|done]. by eapply Hstep.
    + done.
  - intros [= <-]. by eapply Hmiss.
Qed.

Lemma place_throw fuel f seen q e :
  Inv seen f → place fuel f seen q = Throw e → P e.
Proof.
  revert f seen q e.
  induction fuel as [|fuel IH]; intros f seen q e HI; [done|].
  rewrite place_S.
  destruct (deps_loop _ _ _ _) as [q'|e'|] eqn:Hloop; [done| |done].
  intros [= <-].
  eapply (enqueueDeps_throw (place fuel) seen f); [done| |by eauto|done].
  by intros d Hd.
Qed.
End ErrorRule.

(** *** Depth of the recursion *)

Lemma path_ok_length seen :
  path_ok objs factories seen → length seen ≤ distinct_ids objs factories.
Proof.
  intros [Hnd Hin]. apply submseteq_length, NoDup_submseteq; [done|].
  intros s Hs. by apply elem_of_remove_dups, Hin.
Qed.

Lemma path_ok_start f :
  f ∈ factories → path_ok objs factories [api_id objs f].
Proof.
  intros Hf. split; [apply NoDup_singleton|].
  intros s ->%list_elem_of_singleton. by apply list_elem_of_fmap_2.
Qed.

Lemma path_ok_snoc seen d f :
  path_ok objs factories seen → d ∉ seen → producer d = Some f →
  path_ok objs factories (seen ++ [d]).
Proof.
  intros [Hnd Hin] Hd [Hf <-]%producer_Some. split.
  - apply NoDup_app. split_and!; [done| |apply NoDup_singleton].
    intros s Hs ->%list_elem_of_singleton. done.
  - intros s [Hs| ->%list_elem_of_singleton]%elem_of_app; [by apply Hin|].
    by apply list_elem_of_fmap_2.
Qed.

Lemma enqueueDeps_fuel rec1 rec2 seen ds q :
  (∀ d f q0, d ∉ seen → producer d = Some f →
     rec1 f (seen ++ [d]) q0 = rec2 f (seen ++ [d]) q0
     ∧ rec1 f (seen ++ [d]) q0 ≠ OutOfFuel) →
  deps_loop rec1 seen ds q = deps_loop rec2 seen ds q
  ∧ deps_loop rec1 seen ds q ≠ OutOfFuel.
Proof.
  intros Hrec. revert q.
  induction ds as [|depRef ds IH]; intros q; simpl; [done|].
  case_bool_decide as Hseen; [done|].
  destruct (has (id depRef)); simpl; [by apply IH|].
  destruct (producer (id depRef)) as [f|] eqn:Hp; [|done].
  destruct (Hrec _ _ q Hseen Hp) as [<- Hne].
  destruct (rec1 f (seen ++ [id depRef]) q); [by apply IH|done|done].
Qed.

Lemma place_fuel fuel1 fuel2 f seen q :
  path_ok objs factories seen →
  distinct_ids objs factories < length seen + fuel1 →
  distinct_ids objs factories < length seen + fuel2 →
  place fuel1 f seen q = place fuel2 f seen q
  ∧ place fuel1 f seen q ≠ OutOfFuel.
Proof.
  revert fuel2 f seen q.
  induction fuel1 as [|fuel1 IH]; intros fuel2 f seen q Hok H1 H2.
  { apply path_ok_length in Hok. lia. }
  destruct fuel2 as [|fuel2]; [apply path_ok_length in Hok; lia|].
  rewrite !place_S.
  destruct (enqueueDeps_fuel (place fuel1) (place fuel2) seen
              (Object_values (deps (objs f))) q) as [<- Hne].
  { intros d f' q0 Hd Hp. apply IH.
    - by eapply path_ok_snoc.
    - rewrite length_app. simpl. lia.
    - rewrite length_app. simpl. lia. }
  by destruct (deps_loop (place fuel1) seen _ q).
Qed.

Lemma enqueueAll_fuel fuel1 fuel2 fs q :
  (∀ f, f ∈ fs → f ∈ factories) →
  distinct_ids objs factories ≤ fuel1 →
  distinct_ids objs factories ≤ fuel2 →
  place_all fuel1 fs q = place_all fuel2 fs q
  ∧ place_all fuel1 fs q ≠ OutOfFuel.
Proof.
  intros Hfs H1 H2. revert q.
  induction fs as [|f fs IH]; intros q; simpl; [done|].
  destruct (has (api_id objs f)); [done|].
  destruct (place_fuel fuel1 fuel2 f [api_id objs f] q) as [<- Hne];
    [apply path_ok_start, Hfs, elem_of_cons; by left|simpl; lia..|].
  destruct (place fuel1 f [api_id objs f] q); [|done..].
  apply IH. intros f' Hf'. apply Hfs, elem_of_cons. by right.
Qed.

Lemma distinct_ids_le : distinct_ids objs factories ≤ length factories.
Proof.
  unfold distinct_ids, produced.
  rewrite <-(length_fmap (api_id objs) factories).
  apply submseteq_length, NoDup_submseteq; [apply NoDup_remove_dups|].
  intros s. by rewrite elem_of_remove_dups.
Qed.

(** *** The queue built by a successful placement *)

Lemma enqueueDeps_return rec seen ds q q' :
  placed objs σ apis factories q →
  (∀ d f q0 q1, has d = false → producer d = Some f →
     placed objs σ apis factories q0 →
     rec f (seen ++ [d]) q0 = Return q1 →
     placed objs σ apis factories q1 ∧ f ∈ q1 ∧ q0 ⊆ q1) →
  deps_loop rec seen ds q = Return q' →
  placed objs σ apis factories q' ∧ q ⊆ q'
  ∧ ∀ d, d ∈ id <$> ds → has d = true ∨ ∃ f', producer d = Some f' ∧ f' ∈ q'.
Proof.
  intros Hq Hrec. revert q Hq.
  induction ds as [|depRef ds IH]; intros q Hq; simpl.
  { intros [= <-]. split_and!; [done|done|]. by intros d ?%elem_of_nil. }
  case_bool_decide as Hseen; [done|].
  destruct (has (id depRef)) eqn:Hhas; simpl.
  - intros (Hq' & Hsub & Hds)%IH; [|done]. split_and!; [done..|].
    intros d [->|Hd]%elem_of_cons; [by left|by apply Hds].
  - destruct (producer (id depRef)) as [f|] eqn:Hp; [|done].
    destruct (rec f (seen ++ [id depRef]) q) as [q1| |] eqn:Hr; [|done..].
    destruct (Hrec _ _ _ _ Hhas Hp Hq Hr) as (Hq1 & Hf & Hsub1).
    intros (Hq' & Hsub & Hds)%IH; [|done].
    split_and!; [done|by etrans|].
    intros d [->|Hd]%elem_of_cons; [|by apply Hds].
    right. exists f. split; [done|]. by apply Hsub.
Qed.

Lemma place_return fuel f seen q q' :
  placed objs σ apis factories q → f ∈ factories →
  has (api_id objs f) = false →
  place fuel f seen q = Return q' →
  placed objs σ apis factories q' ∧ f ∈ q' ∧ q ⊆ q'.
Proof.
  revert f seen q q'.
  induction fuel as [|fuel IH]; intros f seen q q' Hq Hf Hfresh; [done|].
  rewrite place_S.
  destruct (deps_loop _ _ _ _) as [q1| |] eqn:Hloop; [|done..].
  intros [= <-].
  apply enqueueDeps_return in Hloop as (Hq1 & Hsub & Hds); [|done|].
  - case_bool_decide as Hin; [done|].
    split_and!.
    + by constructor.
    + apply elem_of_app. right. by apply list_elem_of_singleton.
    + intros x Hx. apply elem_of_app. left. by apply Hsub.
  - intros d f' q0 q1' Hhas [Hf' Hid]%producer_Some Hq0.
    apply IH; [done|done|]. by rewrite Hid.
Qed.

Lemma enqueueAll_return fuel fs q q' :
  placed objs σ apis factories q → (∀ f, f ∈ fs → f ∈ factories) →
  place_all fuel fs q = Return q' →
  placed objs σ apis factories q' ∧ q ⊆ q' ∧ ∀ f, f ∈ fs → f ∈ q'.
Proof.
  intros Hq Hfs. revert q Hq.
  induction fs as [|f fs IH]; intros q Hq; simpl.
  { intros [= <-]. split_and!; [done..|]. by intros f ?%elem_of_nil. }
  destruct (has (api_id objs f)) eqn:Hfresh; [done|].
  destruct (place fuel f [api_id objs f] q) as [q1| |] eqn:Hp; [|done..].
  apply place_return in Hp as (Hq1 & Hf & Hsub);
    [|done|apply Hfs, elem_of_cons; by left|done].
  intros (Hq' & Hsub' & Hall)%IH; [| |done].
  - split_and!; [done|by etrans|].
    intros f' [->|Hf']%elem_of_cons; [by apply Hsub'|by apply Hall].
  - intros f' Hf'. apply Hfs, elem_of_cons. by right.
Qed.
End EnqueueFacts.

(** ** The instantiation phase *)

Section InstantiateFacts.
Context `{JsValue V}.
Variable objs : loc → AnyApiFactory V.
Implicit Types (m : gmap string V) (f : loc) (q : list loc).

Local Abbreviation run := (foldl (instantiate_map objs)).

Lemma mapValues_ext {A B} (o : list (string * A)) (fn1 fn2 : A → B) :
  (∀ x, x ∈ Object_values o → fn1 x = fn2 x) →
  mapValues o fn1 = mapValues o fn2.
Proof.
  intros Hext. unfold mapValues. apply list_fmap_ext.
  intros i [k x] Hi. simpl. f_equal. apply Hext.
  unfold Object_values. apply list_elem_of_fmap. exists (k, x).
  split; [done|]. by eapply list_elem_of_lookup_2.
Qed.

Lemma mapValues_dep_ext f (fn1 fn2 : ApiRef V → V) :
  (∀ ref, id ref ∈ dep_ids objs f → fn1 ref = fn2 ref) →
  mapValues (deps (objs f)) fn1 = mapValues (deps (objs f)) fn2.
Proof.
  intros Hext. apply mapValues_ext. intros ref Href. apply Hext.
  unfold dep_ids. by apply list_elem_of_fmap_2.
Qed.

Lemma run_other q m k : k ∉ produced objs q → run m q !! k = m !! k.
Proof.
  revert m. induction q as [|f q IH]; intros m Hk; simpl; [done|].
  unfold produced in Hk. rewrite fmap_cons in Hk.
  apply not_elem_of_cons in Hk as [Hne Hk].
  rewrite IH by done. unfold instantiate_map. by rewrite lookup_insert_ne.
Qed.

Lemma run_is_Some q m k : is_Some (m !! k) → is_Some (run m q !! k).
Proof.
  revert m. induction q as [|f q IH]; intros m Hk; simpl; [done|].
  apply IH. unfold instantiate_map.
  destruct (decide (api_id objs f = k)) as [->|Hne].
  - rewrite lookup_insert_eq. by eexists.
  - by rewrite lookup_insert_ne.
Qed.

Lemma run_produced q m f : f ∈ q → is_Some (run m q !! api_id objs f).
Proof.
  revert m. induction q as [|g q IH]; intros m; [by intros ?%elem_of_nil|].
  intros [->|Hf]%elem_of_cons; simpl; [|by apply IH].
  apply run_is_Some. unfold instantiate_map. rewrite lookup_insert_eq.
  by eexists.
Qed.

Section Placed.
Variables (σ : store V) (apis : loc) (factories : list loc).
Local Abbreviation m0 := (Map_contents σ apis).
Local Abbreviation has := (Map_has σ apis).

Lemma placed_elem q f :
  placed objs σ apis factories q → f ∈ q →
  f ∈ factories ∧ has (api_id objs f) = false
  ∧ ready objs σ apis factories q f.
Proof.
  induction 1 as [|q g Hq IH Hg Hin Hfresh Hready].
  { by intros ?%elem_of_nil. }
  intros [Hf| ->%list_elem_of_singleton]%elem_of_app.
  - destruct (IH Hf) as (? & ? & Hr). split_and!; [done..|].
    intros d Hd. destruct (Hr d Hd) as [?|(f' & ? & ?)]; [by left|].
    right. exists f'. split; [done|]. apply elem_of_app. by left.
  - split_and!; [done..|].
    intros d Hd. destruct (Hready d Hd) as [?|(f' & ? & ?)]; [by left|].
    right. exists f'. split; [done|]. apply elem_of_app. by left.
Qed.

(** Placed factories never write a key the resolver held. *)
Lemma placed_fresh q :
  placed objs σ apis factories q →
  ∀ k, is_Some (m0 !! k) → k ∉ produced objs q.
Proof.
  intros Hq k Hk (f & -> & Hf)%list_elem_of_fmap.
  destruct (placed_elem q f Hq Hf) as (_ & Hfresh & _).
  apply Map_has_false in Hfresh. rewrite Hfresh in Hk.
  by destruct Hk.
Qed.

Lemma placed_keeps q k :
  placed objs σ apis factories q →
  is_Some (m0 !! k) → run m0 q !! k = m0 !! k.
Proof. intros Hq Hk. apply run_other. by eapply placed_fresh. Qed.

Hypothesis ids_inj : ∀ f g,
  f ∈ factories → g ∈ factories → api_id objs f = api_id objs g → f = g.

Lemma ready_not_self q f g :
  ready objs σ apis factories q g → g ∈ factories →
  (∀ x, x ∈ q → x ∈ factories) →
  f ∈ factories → f ∉ q → has (api_id objs f) = false →
  ∀ d, d ∈ dep_ids objs g → d ≠ api_id objs f.
Proof.
  intros Hready Hg Hq Hf Hnin Hfresh d Hd ->.
  destruct (Hready _ Hd) as [Hhas|(f' & Hp & Hin)]; [congruence|].
  apply producer_Some in Hp as [Hf' Hid].
  apply ids_inj in Hid; [|done..]. by subst.
Qed.

(** After the instantiation of a placed queue, the value of every
    factory of the queue is its construction function applied to the
    final values of its dependencies. *)
Lemma placed_values q :
  placed objs σ apis factories q →
  ∀ f, f ∈ q →
    run m0 q !! api_id objs f =
    Some (factory (objs f)
            (mapValues (deps (objs f))
               (λ ref, default undefined (run m0 q !! id ref)))).
Proof.
  induction 1 as [|q g Hq IH Hg Hin Hfresh Hready].
  { by intros f ?%elem_of_nil. }
  assert (∀ x, x ∈ q → x ∈ factories) as Hsub.
  { intros x Hx. by destruct (placed_elem q x Hq Hx). }
  intros f Hf. rewrite foldl_snoc. unfold instantiate_map at 1 3.
  apply elem_of_app in Hf as [Hf| ->%list_elem_of_singleton].
  - destruct (placed_elem q f Hq Hf) as (Hff & _ & Hr).
    rewrite lookup_insert_ne.
    2:{ intros Heq. apply ids_inj in Heq; [|done..]. by subst. }
    rewrite IH by done. f_equal. f_equal.
    apply mapValues_dep_ext. intros ref Href.
    rewrite lookup_insert_ne; [done|].
    intros Heq. by eapply (ready_not_self q g f), eq_sym.
  - rewrite lookup_insert_eq. f_equal. f_equal.
    apply mapValues_dep_ext. intros ref Href.
    rewrite lookup_insert_ne; [done|].
    intros Heq. by eapply (ready_not_self q g g), eq_sym.
Qed.
End Placed.
End InstantiateFacts.

(** ** Properties of [with] and [resolve] *)

Section Claims.
Context `{JsValue V}.
Variable objs : loc → AnyApiFactory V.
Implicit Types (σ : store V) (r : ApiResolver) (f : loc) (d : string)
  (fs batch perm : list loc).

Lemma has_copy σ r d :
  Map_has (σ ++ [registry σ r]) (length σ) d = registered σ r d.
Proof. by rewrite Map_has_new. Qed.

Lemma with_eq r fs σ :
  with_ objs r fs σ =
  match enqueueAll objs (σ ++ [registry σ r]) (length σ) fs
          (length fs) fs [] with
  | Return queue =>
      (Return {| apis := length σ |},
       σ ++ [foldl (instantiate_map objs) (registry σ r) queue])
  | Throw e => (Throw e, σ ++ [registry σ r])
  | OutOfFuel => (OutOfFuel, σ ++ [registry σ r])
  end.
Proof. apply with_fuel_eq. Qed.

Lemma enqueueAll_enough_fuel σ apis fs :
  enqueueAll objs σ apis fs (length fs) fs [] ≠ OutOfFuel.
Proof.
  eapply enqueueAll_fuel; [done|apply distinct_ids_le..].
Qed.

(** Where an error of the first loop comes from. *)
Lemma enqueueAll_throw σ apis factories fuel fs q e :
  enqueueAll objs σ apis factories fuel fs q = Throw e →
  (∃ f, f ∈ fs ∧ Map_has σ apis (api_id objs f) = true
        ∧ e = DuplicateRegistration (api_id objs f))
  ∨ (∃ f q0, f ∈ fs ∧ Map_has σ apis (api_id objs f) = false
        ∧ enqueueDepthFirst objs σ apis factories fuel f
            [api_id objs f] q0 = Throw e).
Proof.
  revert q. induction fs as [|f fs IH]; intros q; simpl; [done|].
  destruct (Map_has σ apis (api_id objs f)) eqn:Hhas.
  { intros [= <-]. left. exists f. split_and!; [|done..].
    apply elem_of_cons. by left. }
  destruct (enqueueDepthFirst _ _ _ _ _ _ _ _) as [q1|e1|] eqn:Hp.
  - intros [(g & ? & ? & ?)|(g & q0 & ? & ? & ?)]%IH.
    + left. exists g. split_and!; [|done..]. apply elem_of_cons. by right.
    + right. exists g, q0. split_and!; [|done..].
      apply elem_of_cons. by right.
  - intros [= <-]. right. exists f, q. split_and!; [|done..].
    apply elem_of_cons. by left.
  - done.
Qed.

(** C10 — [resolve] is keyed by the identifier of the reference alone:
    two references with the same [id] (whatever their [T]) resolve to
    the same value; a reference whose identifier the resolver does not
    hold resolves to [undefined], the absent result; and every reference
    resolves to [undefined] in the resolver made by [empty()].  [resolve]
    is a total function: it has no error result. *)
Theorem resolve_keyed_by_id σ r (r1 r2 : ApiRef V) :
  id r1 = id r2 →
  resolve σ r r1 = resolve σ r r2
  ∧ (Map_has σ r.(apis) (id r1) = false → resolve σ r r1 = undefined)
  ∧ (∀ σ0, resolve (empty σ0).2 (empty σ0).1 r1 = undefined).
Proof.
  intros Hid. split_and!.
  - unfold resolve. by rewrite Hid.
  - intros Hnone%Map_has_false. unfold resolve, Map_get. by rewrite Hnone.
  - intros σ0. unfold empty, Map_new, resolve, Map_get. simpl.
    by rewrite Map_contents_new, lookup_empty.
Qed.

(** C6 — [with] leaves its receiver unchanged, whether it returns or
    throws: the registry of the receiver, hence the result of [resolve]
    on it for every reference and whether it holds the identifier, is the
    same after the call as before; so is every map that existed before
    the call; and when [with] throws, the store has only gained the
    discarded copy of the receiver's map, with no entry of the batch. *)
Theorem with_leaves_receiver_unchanged σ r fs (x : ApiRef V) :
  valid σ r →
  let σ' := (with_ objs r fs σ).2 in
  registry σ' r = registry σ r
  ∧ resolve σ' r x = resolve σ r x
  ∧ registered σ' r (id x) = registered σ r (id x)
  ∧ (∀ l, l < length σ → Map_contents σ' l = Map_contents σ l)
  ∧ (∀ e, (with_ objs r fs σ).1 = Throw e → σ' = σ ++ [registry σ r]).
Proof.
  intros Hvalid. simpl.
  assert (∀ l, l < length σ →
    Map_contents (with_ objs r fs σ).2 l = Map_contents σ l) as Hframe.
  { intros l Hl. rewrite with_eq.
    destruct (enqueueAll _ _ _ _ _ _ _); simpl;
      by apply Map_contents_old. }
  split_and!.
  - by apply Hframe.
  - rewrite !resolve_registry. unfold registry. by rewrite Hframe.
  - unfold registered, Map_has. by rewrite Hframe.
  - done.
  - intros e. rewrite with_eq.
    by destruct (enqueueAll _ _ _ _ _ _ _).
Qed.

(** C9 — [with] terminates.  The path [seen] never repeats an identifier
    and only holds identifiers the batch produces, so a recursion depth
    of the number of distinct identifiers of the batch is never
    exceeded: with any such bound [with] computes the same result, which
    is a resolver or one of the three errors. *)
Theorem with_terminates σ r fs fuel :
  distinct_ids objs fs ≤ fuel →
  with_fuel objs fuel r fs σ = with_ objs r fs σ
  ∧ ((∃ r', (with_ objs r fs σ).1 = Return r')
     ∨ (∃ e, (with_ objs r fs σ).1 = Throw e)).
Proof.
  intros Hfuel. split.
  - unfold with_. rewrite !with_fuel_eq.
    destruct (enqueueAll_fuel objs (σ ++ [registry σ r]) (length σ) fs
                fuel (length fs) fs []) as [-> _];
      [done|done|apply distinct_ids_le|done].
  - rewrite with_eq.
    pose proof (enqueueAll_enough_fuel (σ ++ [registry σ r]) (length σ) fs).
    destruct (enqueueAll _ _ _ _ _ _ _); simpl; [left|right|done];
      by eexists.
Qed.

(** C7 (amended) — [with] either throws, committing nothing, or returns
    a resolver whose registry contains every entry of the receiver's
    with the same value; it is strictly larger, with strictly more
    entries, when the batch is not empty. *)
Theorem with_grows σ r fs :
  (∃ e, with_ objs r fs σ = (Throw e, σ ++ [registry σ r]))
  ∨ (∃ r' σ', with_ objs r fs σ = (Return r', σ')
       ∧ registry σ r ⊆ registry σ' r'
       ∧ (fs ≠ [] →
          registry σ r ⊂ registry σ' r'
          ∧ size (registry σ r) < size (registry σ' r'))).
Proof.
  rewrite with_eq.
  pose proof (enqueueAll_enough_fuel (σ ++ [registry σ r]) (length σ) fs)
    as Hfuel.
  destruct (enqueueAll _ _ _ _ _ _ _) as [q|e|] eqn:Hq;
    [right|left; by eexists|done].
  apply enqueueAll_return in Hq as (Hq & _ & Hall); [|constructor|done].
  eexists _, _. split; [done|]. rewrite registry_new.
  assert (registry σ r ⊆ foldl (instantiate_map objs) (registry σ r) q)
    as Hsub.
  { apply map_subseteq_spec. intros k v Hk.
    erewrite <-(Map_contents_new σ (registry σ r)) at 1.
    rewrite placed_keeps with (factories := fs); [| |].
    - by rewrite Map_contents_new.
    - done.
    - rewrite Map_contents_new. by eexists. }
  split; [done|]. intros Hne.
  assert (registry σ r ⊂ foldl (instantiate_map objs) (registry σ r) q)
    as Hstrict.
  { apply map_subset_alt. split; [done|].
    destruct fs as [|f fs]; [done|]. exists (api_id objs f).
    assert (f ∈ q) as Hf by (apply Hall, elem_of_cons; by left).
    split; [|by apply run_produced].
    destruct (placed_elem objs _ _ _ q f Hq Hf) as (_ & Hfresh & _).
    apply Map_has_false in Hfresh. by rewrite Map_contents_new in Hfresh. }
  split; [done|]. by apply map_subset_size.
Qed.

Lemma produced_inj fs f g :
  NoDup (produced objs fs) → f ∈ fs → g ∈ fs →
  api_id objs f = api_id objs g → f = g.
Proof.
  intros Hnd [i Hi]%list_elem_of_lookup [j Hj]%list_elem_of_lookup Heq.
  assert (i = j) as ->; [|congruence].
  eapply (NoDup_lookup _ _ _ _ Hnd); unfold produced;
    rewrite list_lookup_fmap; [by rewrite Hi|by rewrite Hj, Heq].
Qed.

(** A batch of distinct fresh identifiers whose dependencies are
    satisfiable and acyclic is registered: the entries of the receiver are
    kept, and the value of each factory is its construction function
    applied to the final values of its dependencies. *)
Lemma with_values σ r fs :
  NoDup (produced objs fs) → fresh objs σ r fs →
  satisfiable objs σ r fs → acyclic objs σ r fs →
  ∃ r' σ', with_ objs r fs σ = (Return r', σ')
    ∧ (∀ k, is_Some (registry σ r !! k) →
         registry σ' r' !! k = registry σ r !! k)
    ∧ (∀ f, f ∈ fs →
         registry σ' r' !! api_id objs f =
         Some (factory (objs f)
                 (mapValues (deps (objs f))
                    (λ ref, default undefined (registry σ' r' !! id ref))))).
Proof.
  intros Hnd Hfresh Hsat [rank Hrank]. rewrite with_eq.
  pose proof (enqueueAll_enough_fuel (σ ++ [registry σ r]) (length σ) fs)
    as Hfuel.
  destruct (enqueueAll _ _ _ _ _ _ _) as [q|e|] eqn:Hq; [| |done].
  - apply enqueueAll_return in Hq as (Hq & _ & Hall); [|constructor|done].
    eexists _, _. split; [done|]. rewrite registry_new.
    pose proof (placed_values objs _ _ fs (λ f g, produced_inj fs f g Hnd)
                  q Hq) as Hvalues.
    pose proof (λ k, placed_keeps objs _ _ fs q k Hq) as Hkeeps.
    rewrite Map_contents_new in Hvalues, Hkeeps.
    split; [done|]. intros f Hf. by apply Hvalues, Hall.
  - exfalso.
    apply enqueueAll_throw in Hq
      as [(f & Hf & Hhas & _)|(f & q0 & Hf & Hhas & Hp)];
      rewrite has_copy in Hhas.
    { by rewrite Hfresh in Hhas. }
    eapply (place_throw objs _ _ fs
              (λ seen g, g ∈ fs ∧ ∀ s, s ∈ seen →
                 registered σ r s = false
                 ∧ rank (api_id objs g) ≤ rank s)
              (λ _, False)); [| | | |exact Hp].
    + intros seen g d g' [Hg Hseen] Hd Hnin Hreg [Hg' Hid]%producer_Some.
      rewrite has_copy in Hreg. split; [done|].
      pose proof (Hrank g d Hg Hd Hreg) as Hlt. rewrite Hid.
      intros s [Hs| ->%list_elem_of_singleton]%elem_of_app; [|done].
      destruct (Hseen s Hs). split; [done|lia].
    + intros seen g d [Hg Hseen] Hd Hin.
      destruct (Hseen d Hin) as [Hreg Hle].
      pose proof (Hrank g d Hg Hd Hreg). lia.
    + intros seen g d [Hg Hseen] Hd Hnin Hreg Hnone%producer_None.
      rewrite has_copy in Hreg.
      destruct (Hsat g d Hg Hd); [congruence|done].
    + split; [done|]. intros s ->%list_elem_of_singleton. done.
Qed.

(** Such a batch has a canonical computation. *)
Lemma canonical_exists σ r fs :
  NoDup (produced objs fs) → fresh objs σ r fs →
  satisfiable objs σ r fs → acyclic objs σ r fs →
  ∃ val, canonical objs σ r fs val.
Proof.
  intros Hnd Hfresh Hsat Hacyc.
  destruct (with_values σ r fs) as (r' & σ' & _ & Hkeeps & Hvalues);
    [done..|].
  exists (λ i, default undefined (registry σ' r' !! i)).
  intros f Hf. rewrite Hvalues by done. simpl. f_equal.
  apply mapValues_dep_ext. intros ref Href.
  destruct (registered σ r (id ref)) eqn:Hreg; [|done].
  apply Map_has_true in Hreg. by rewrite Hkeeps.
Qed.

(** The values of the canonical computation are the resolved ones. *)
Lemma with_canonical σ r fs (val : string → V) :
  NoDup (produced objs fs) → fresh objs σ r fs →
  satisfiable objs σ r fs → acyclic objs σ r fs →
  canonical objs σ r fs val →
  ∃ r' σ', with_ objs r fs σ = (Return r', σ')
    ∧ ∀ f, f ∈ fs → resolve σ' r' (api (objs f)) = val (api_id objs f).
Proof.
  intros Hnd Hfresh Hsat Hacyc Hval.
  destruct (with_values σ r fs) as (r' & σ' & Hwith & Hkeeps & Hvalues);
    [done..|].
  destruct Hacyc as [rank Hrank].
  exists r', σ'. split; [done|].
  assert (∀ n f, f ∈ fs → rank (api_id objs f) < n →
    default undefined (registry σ' r' !! api_id objs f)
    = val (api_id objs f)) as Hind.
  { induction n as [|n IH]; intros f Hf Hn; [lia|].
    rewrite Hvalues by done. simpl. rewrite (Hval f Hf).
    f_equal. apply mapValues_dep_ext. intros ref Href.
    destruct (registered σ r (id ref)) eqn:Hreg.
    - apply Map_has_true in Hreg. by rewrite Hkeeps.
    - destruct (Hsat f _ Hf Href) as [?|(g & Hg & Hgin)%list_elem_of_fmap];
        [congruence|].
      rewrite Hg. apply IH; [done|].
      pose proof (Hrank f _ Hf Href Hreg). rewrite <-Hg. lia. }
  intros f Hf. rewrite resolve_registry.
  apply (Hind (S (rank (api_id objs f)))); [done|lia].
Qed.

(** C1 (amended) — For every batch whose factories produce pairwise
    distinct identifiers that the resolver does not hold yet, and whose
    dependencies are satisfiable (held by the resolver or produced by the
    batch) and acyclic, [with] of every permutation of the batch returns
    a resolver, in which [resolve] of each produced reference yields the
    value of the canonical dependency-respecting computation. *)
Theorem with_any_arrangement σ r batch perm (val : string → V) :
  NoDup (produced objs batch) → fresh objs σ r batch →
  satisfiable objs σ r batch → acyclic objs σ r batch →
  canonical objs σ r batch val →
  batch ≡ₚ perm →
  ∃ r' σ', with_ objs r perm σ = (Return r', σ')
    ∧ ∀ f, f ∈ batch →
        resolve σ' r' (api (objs f)) = val (api_id objs f).
Proof.
  intros Hnd Hfresh Hsat [rank Hrank] Hval Hperm.
  assert (∀ f, f ∈ perm ↔ f ∈ batch) as Hin
    by (intros f; by rewrite Hperm).
  destruct (with_canonical σ r perm val) as (r' & σ' & Hwith & Hres).
  - unfold produced. by rewrite <-Hperm.
  - intros f Hf%Hin. by apply Hfresh.
  - intros f d Hf%Hin Hd.
    destruct (Hsat f d Hf Hd) as [?|(g & ? & Hg)%list_elem_of_fmap];
      [by left|right].
    apply list_elem_of_fmap. exists g. by rewrite Hin.
  - exists rank. intros f d Hf%Hin. by apply Hrank.
  - intros f Hf%Hin. by apply Hval.
  - exists r', σ'. split; [done|]. intros f Hf%Hin. by apply Hres.
Qed.

Lemma enqueueAll_app σ apis factories fuel pre post q :
  enqueueAll objs σ apis factories fuel (pre ++ post) q =
  match enqueueAll objs σ apis factories fuel pre q with
  | Return q' => enqueueAll objs σ apis factories fuel post q'
  | r => r
  end.
Proof.
  revert q. induction pre as [|f pre IH]; intros q; simpl; [done|].
  destruct (Map_has σ apis (api_id objs f)); [done|].
  by destruct (enqueueDepthFirst _ _ _ _ _ _ _ _).
Qed.

(** The placement of a factory only throws the missing-dependency and
    circular-dependency errors. *)
Lemma place_throw_kind σ apis factories fuel f seen q e :
  enqueueDepthFirst objs σ apis factories fuel f seen q = Throw e →
  ∃ seen' dep, e = MissingDependency seen' dep
               ∨ e = CircularDependency seen' dep.
Proof.
  apply (place_throw objs σ apis factories (λ _ _, True)
           (λ e, ∃ seen' dep, e = MissingDependency seen' dep
                              ∨ e = CircularDependency seen' dep));
    [done| | |done].
  - intros. eexists _, _. by right.
  - intros. eexists _, _. by left.
Qed.

(** C3 (amended) — When the batch holds a factory whose identifier the
    resolver already holds, [with] throws and commits nothing.  With [f]
    the first such factory of the batch, the error is
    [DuplicateRegistration] naming the identifier of [f], unless placing
    the factories that come before [f] throws a missing-dependency or a
    circular-dependency error, which is then the error of [with]. *)
Theorem with_rejects_registered σ r batch pre f post :
  batch = pre ++ f :: post →
  registered σ r (api_id objs f) = true →
  fresh objs σ r pre →
  let before :=
    enqueueAll objs (σ ++ [registry σ r]) (length σ) batch
      (length batch) pre [] in
  ∃ e, with_ objs r batch σ = (Throw e, σ ++ [registry σ r])
    ∧ ((e = DuplicateRegistration (api_id objs f)
        ∧ is_Return before = true)
       ∨ (before = Throw e
          ∧ ∃ seen dep, e = MissingDependency seen dep
                        ∨ e = CircularDependency seen dep)).
Proof.
  intros Hbatch Hreg Hfresh before. rewrite with_eq.
  assert (before ≠ OutOfFuel) as Hfuel.
  { eapply enqueueAll_fuel; [|apply distinct_ids_le..].
    intros g Hg. rewrite Hbatch. apply elem_of_app. by left. }
  pose proof (enqueueAll_app (σ ++ [registry σ r]) (length σ) batch
                (length batch) pre (f :: post) []) as Happ.
  rewrite <-Hbatch in Happ. fold before in Happ. rewrite Happ. clear Happ.
  destruct before as [q|e|] eqn:Hbefore; [| |done].
  - simpl. rewrite has_copy, Hreg. eexists. split; [done|]. by left.
  - eexists. split; [done|]. right. split; [done|].
    apply enqueueAll_throw in Hbefore
      as [(g & Hg & Hhas & _)|(g & q0 & _ & _ & Hp)].
    + rewrite has_copy in Hhas. by rewrite Hfresh in Hhas.
    + by eapply place_throw_kind.
Qed.

Lemma producer_not_produced factories d :
  d ∉ produced objs factories →
  find (λ f, bool_decide (api_id objs f = d)) factories = None.
Proof.
  intros Hd. destruct (find _ _) as [f|] eqn:Hp; [|done].
  apply producer_Some in Hp as [Hf <-]. destruct Hd.
  by apply list_elem_of_fmap_2.
Qed.

Lemma enqueueDeps_dangling σ apis factories rec seen ds q d :
  d ∈ id <$> ds → d ∉ seen → Map_has σ apis d = false →
  d ∉ produced objs factories →
  is_Return (enqueueDeps objs σ apis factories rec seen ds q) = false.
Proof.
  intros Hd Hseen Hhas Hprod. revert q.
  induction ds as [|depRef ds IH]; intros q; [by apply elem_of_nil in Hd|].
  rewrite fmap_cons in Hd. simpl.
  destruct (decide (id depRef = d)) as [->|Hne].
  - rewrite bool_decide_eq_false_2, Hhas by done. simpl.
    by rewrite producer_not_produced.
  - apply elem_of_cons in Hd as [?|Hd]; [done|].
    case_bool_decide; [done|].
    destruct (Map_has σ apis (id depRef)); simpl; [by apply IH|].
    destruct (find _ _); [|done].
    destruct (rec _ _ _); [by apply IH|done..].
Qed.

Lemma enqueueAll_dangling σ apis factories fuel fs q f d :
  f ∈ fs → d ∈ dep_ids objs f → Map_has σ apis d = false →
  d ∉ produced objs factories → f ∈ factories →
  is_Return (enqueueAll objs σ apis factories fuel fs q) = false.
Proof.
  intros Hf Hd Hhas Hprod Hfin. revert q.
  induction fs as [|g fs IH]; intros q; [by apply elem_of_nil in Hf|].
  simpl. destruct (Map_has σ apis (api_id objs g)); [done|].
  destruct (enqueueDepthFirst _ _ _ _ _ _ _ _) as [q1| |] eqn:Hp; [|done..].
  apply elem_of_cons in Hf as [->|Hf]; [|by apply IH].
  destruct fuel as [|fuel]; [done|]. rewrite place_S in Hp.
  pose proof (enqueueDeps_dangling σ apis factories
    (enqueueDepthFirst objs σ apis factories fuel) [api_id objs g]
    (Object_values (deps (objs g))) q d Hd) as Hloop.
  destruct (enqueueDeps _ _ _ _ _ _ _ _); [|done..].
  discriminate Hloop; [|done..].
  intros ->%list_elem_of_singleton. destruct Hprod.
  by apply list_elem_of_fmap_2.
Qed.

Lemma dep_chain_snoc batch p f d :
  dep_chain objs batch (p ++ [api_id objs f]) → f ∈ batch →
  d ∈ dep_ids objs f →
  dep_chain objs batch ((p ++ [api_id objs f]) ++ [d]).
Proof. by constructor. Qed.

(** C4 (amended) — When a factory of the batch has a dependency that the
    resolver does not hold and the batch does not produce, [with] of
    every permutation of the batch throws and commits nothing.  When,
    moreover, the batch produces no identifier that the resolver already
    holds and its dependencies are acyclic, the error is
    [MissingDependency]; it reports a chain that starts at the
    identifier of a factory of the batch, follows dependencies, and ends
    at an identifier that nothing resolves.  When that dependency is the
    only unresolvable one and no factory of the batch depends on the
    factory that has it, the chain is exactly the identifier of that
    factory followed by the missing identifier. *)
Theorem with_rejects_dangling σ r batch perm f d :
  dangling objs σ r batch f d →
  batch ≡ₚ perm →
  ∃ e, with_ objs r perm σ = (Throw e, σ ++ [registry σ r])
    ∧ (fresh objs σ r batch → acyclic objs σ r batch →
       (∃ seen dep,
          e = MissingDependency seen dep
          ∧ dep_chain objs batch (seen ++ [dep])
          ∧ registered σ r dep = false
          ∧ dep ∉ produced objs batch)
       ∧ ((∀ g d', dangling objs σ r batch g d' → g = f ∧ d' = d) →
          (∀ g, g ∈ batch → api_id objs f ∉ dep_ids objs g) →
          e = MissingDependency [api_id objs f] d)).
Proof.
  intros (Hf & Hd & Hreg & Hprod) Hperm.
  assert (∀ g, g ∈ perm ↔ g ∈ batch) as Hin
    by (intros g; by rewrite Hperm).
  assert (∀ i, i ∈ produced objs perm ↔ i ∈ produced objs batch) as Hpr
    by (intros i; unfold produced; by rewrite Hperm).
  rewrite with_eq.
  pose proof (enqueueAll_enough_fuel (σ ++ [registry σ r]) (length σ) perm)
    as Hfuel.
  pose proof (enqueueAll_dangling (σ ++ [registry σ r]) (length σ) perm
                (length perm) perm [] f d) as Hdang.
  rewrite has_copy in Hdang.
  destruct (enqueueAll _ _ _ _ _ _ _) as [q|e|] eqn:Hq; [|clear Hdang|done].
  { discriminate Hdang; by rewrite ?Hin, ?Hpr. }
  exists e. split; [done|]. intros Hfresh [rank Hrank].
  apply enqueueAll_throw in Hq
    as [(g & Hg & Hhas & _)|(g & q0 & Hg & Hhas & Hp)];
    rewrite has_copy in Hhas.
  { apply Hin in Hg. by rewrite Hfresh in Hhas. }
  eapply (place_throw objs _ _ perm
    (λ seen g,
       g ∈ batch
       ∧ (∀ s, s ∈ seen →
            registered σ r s = false ∧ rank (api_id objs g) ≤ rank s)
       ∧ (∃ p, seen = p ++ [api_id objs g])
       ∧ dep_chain objs batch seen
       ∧ ((∀ g d', dangling objs σ r batch g d' → g = f ∧ d' = d) →
          (∀ g, g ∈ batch → api_id objs f ∉ dep_ids objs g) →
          g = f → seen = [api_id objs f]))
    (λ e,
       (∃ seen dep,
          e = MissingDependency seen dep
          ∧ dep_chain objs batch (seen ++ [dep])
          ∧ registered σ r dep = false
          ∧ dep ∉ produced objs batch)
       ∧ ((∀ g d', dangling objs σ r batch g d' → g = f ∧ d' = d) →
          (∀ g, g ∈ batch → api_id objs f ∉ dep_ids objs g) →
          e = MissingDependency [api_id objs f] d)));
    [| | | |exact Hp].
  - intros seen g0 d0 g' (Hg0 & Hseen & [p Hp0] & Hchain & Honly)
      Hd0 Hnin Hreg0 [Hg' Hid]%producer_Some.
    rewrite has_copy in Hreg0. apply Hin in Hg'.
    pose proof (Hrank g0 d0 Hg0 Hd0 Hreg0) as Hlt.
    split_and!; [done| | | |].
    + rewrite Hid.
      intros s [Hs| ->%list_elem_of_singleton]%elem_of_app; [|done].
      destruct (Hseen s Hs). split; [done|lia].
    + exists seen. by rewrite Hid.
    + rewrite Hp0. apply dep_chain_snoc; [by rewrite <-Hp0|done..].
    + intros _ Hunrel ->. destruct (Hunrel g0 Hg0). by rewrite Hid.
  - intros seen g0 d0 (Hg0 & Hseen & _) Hd0 Hin0.
    destruct (Hseen d0 Hin0) as [Hreg0 Hle].
    pose proof (Hrank g0 d0 Hg0 Hd0 Hreg0). lia.
  - intros seen g0 d0 (Hg0 & Hseen & [p Hp0] & Hchain & Honly)
      Hd0 Hnin Hreg0 Hnone%producer_None.
    rewrite has_copy in Hreg0. rewrite Hpr in Hnone. split.
    + eexists _, _. split_and!; [done| |done..].
      rewrite Hp0. apply dep_chain_snoc; [by rewrite <-Hp0|done..].
    + intros Hone Hunrel.
      destruct (Hone g0 d0) as [-> ->]; [done|].
      by rewrite (Honly Hone Hunrel).
  - apply Hin in Hg. split_and!; [done| | | |by intros _ _ ->].
    + intros s ->%list_elem_of_singleton. done.
    + by exists [].
    + by constructor.
Qed.

Lemma enqueueAll_cons σ apis factories fuel f fs q :
  enqueueAll objs σ apis factories fuel (f :: fs) q =
  if Map_has σ apis (api_id objs f) then
    Throw (DuplicateRegistration (api_id objs f))
  else
    match enqueueDepthFirst objs σ apis factories fuel f
            [api_id objs f] q with
    | Return q' => enqueueAll objs σ apis factories fuel fs q'
    | o => o
    end.
Proof. done. Qed.

Lemma enqueueDeps_cons σ apis factories rec seen depRef ds q :
  enqueueDeps objs σ apis factories rec seen (depRef :: ds) q =
  if bool_decide (id depRef ∈ seen) then
    Throw (CircularDependency seen (id depRef))
  else if negb (Map_has σ apis (id depRef)) then
    match find (λ f, bool_decide (api_id objs f = id depRef)) factories with
    | None => Throw (MissingDependency seen (id depRef))
    | Some depFactory =>
        match rec depFactory (seen ++ [id depRef]) q with
        | Return q' => enqueueDeps objs σ apis factories rec seen ds q'
        | o => o
        end
    end
  else enqueueDeps objs σ apis factories rec seen ds q.
Proof. done. Qed.

Lemma sole_producer factories b :
  b ∈ factories →
  (∀ g, g ∈ factories → api_id objs g = api_id objs b → g = b) →
  find (λ f, bool_decide (api_id objs f = api_id objs b)) factories
  = Some b.
Proof.
  intros Hb Hsole.
  destruct (producer_produced objs factories (api_id objs b)) as [g Hg].
  { by apply list_elem_of_fmap_2. }
  rewrite Hg. f_equal. apply producer_Some in Hg as [? ?]. by apply Hsole.
Qed.





Lemma enqueueDeps_registered σ apis factories rec seen ds q :
  (∀ s, s ∈ seen → Map_has σ apis s = false) →
  (∀ d, d ∈ id <$> ds → Map_has σ apis d = true) →
  enqueueDeps objs σ apis factories rec seen ds q = Return q.
Proof.
  intros Hseen Hds. induction ds as [|depRef ds IH]; [done|].
  rewrite fmap_cons in Hds. rewrite enqueueDeps_cons.
  rewrite bool_decide_eq_false_2, Hds; [|by left|].
  - apply IH. intros d Hd. apply Hds. by right.
  - intros Hin%Hseen. rewrite Hds in Hin; [done|by left].
Qed.

Lemma place_registered σ apis factories fuel f seen q :
  (∀ s, s ∈ seen → Map_has σ apis s = false) →
  (∀ d, d ∈ dep_ids objs f → Map_has σ apis d = true) →
  enqueueDepthFirst objs σ apis factories (S fuel) f seen q
  = Return (if bool_decide (f ∈ q) then q else q ++ [f]).
Proof. intros ??. by rewrite place_S, enqueueDeps_registered. Qed.

(** A loop over dependencies that all name [trig], produced by [g]. *)
Lemma enqueueDeps_same σ apis factories rec seen ds q g trig :
  trig ∉ seen → Map_has σ apis trig = false →
  find (λ f, bool_decide (api_id objs f = trig)) factories = Some g →
  (∀ q', rec g (seen ++ [trig]) q'
         = Return (if bool_decide (g ∈ q') then q' else q' ++ [g])) →
  (∀ d, d ∈ id <$> ds → d = trig) →
  enqueueDeps objs σ apis factories rec seen ds q
  = Return (match ds with
            | [] => q
            | _ => if bool_decide (g ∈ q) then q else q ++ [g]
            end).
Proof.
  intros Hseen Hhas Hfind Hrec Hds. revert q.
  induction ds as [|depRef ds IH]; intros q; [done|].
  rewrite fmap_cons in Hds.
  rewrite enqueueDeps_cons, (Hds (id depRef)) by (by left).
  rewrite bool_decide_eq_false_2, Hhas by done. cbn [negb].
  rewrite Hfind, Hrec, IH by (intros d Hd; apply Hds; by right).
  f_equal. destruct ds; [done|].
  destruct (decide (g ∈ q)) as [Hg|Hg].
  - by rewrite !(bool_decide_eq_true_2 (g ∈ q)) by done.
  - rewrite (bool_decide_eq_false_2 (g ∈ q)) by done.
    rewrite bool_decide_eq_true_2; [done|].
    apply elem_of_app. right. by apply list_elem_of_singleton.
Qed.

Lemma with_registered_head σ r f fs :
  registered σ r (api_id objs f) = true →
  with_ objs r (f :: fs) σ
  = (Throw (DuplicateRegistration (api_id objs f)), σ ++ [registry σ r]).
Proof. intros Hreg. by rewrite with_eq, enqueueAll_cons, has_copy, Hreg. Qed.

Lemma with_Return_fresh σ r fs r' σ' :
  with_ objs r fs σ = (Return r', σ') → fresh objs σ r fs.
Proof.
  rewrite with_eq.
  destruct (enqueueAll _ _ _ _ _ _ _) as [q| |] eqn:Hq; [|done..].
  intros _ f Hf.
  apply enqueueAll_return in Hq as (Hq & _ & Hall); [|constructor|done].
  destruct (placed_elem objs _ _ _ q f Hq) as (_ & Hfresh & _);
    [by apply Hall|].
  by rewrite has_copy in Hfresh.
Qed.

Lemma with_Throw_or_Return σ r fs :
  is_Return (with_ objs r fs σ).1 = false →
  is_Throw (with_ objs r fs σ).1 = true.
Proof.
  rewrite with_eq.
  pose proof (enqueueAll_enough_fuel (σ ++ [registry σ r]) (length σ) fs).
  by destruct (enqueueAll _ _ _ _ _ _ _).
Qed.

Lemma with_not_fresh σ r fs f :
  f ∈ fs → registered σ r (api_id objs f) = true →
  is_Throw (with_ objs r fs σ).1 = true.
Proof.
  intros Hf Hreg. apply with_Throw_or_Return.
  destruct (with_ objs r fs σ) as [[r'| |] σ'] eqn:Hw; [|done..].
  apply with_Return_fresh in Hw. rewrite Hw in Hreg; done.
Qed.

Lemma registered_new σ (m : gmap string V) k :
  registered (σ ++ [m]) {| apis := length σ |} k
  = bool_decide (is_Some (m !! k)).
Proof. apply Map_has_new. Qed.

(** [with([b])] when the dependencies of [b] are all held already. *)
Lemma with_single_registered σ r b :
  registered σ r (api_id objs b) = false →
  (∀ d, d ∈ dep_ids objs b → registered σ r d = true) →
  with_ objs r [b] σ
  = (Return {| apis := length σ |},
     σ ++ [instantiate_map objs (registry σ r) b]).
Proof.
  intros Hreg Hdeps.
  rewrite with_eq, enqueueAll_cons, has_copy, Hreg.
  change (length [b]) with 1. rewrite place_registered.
  - by rewrite bool_decide_eq_false_2 by apply not_elem_of_nil.
  - intros s ->%list_elem_of_singleton. by rewrite has_copy.
  - intros d Hd. rewrite has_copy. by apply Hdeps.
Qed.

(** C8 (amended) — Let [a] depend only on the identifier that [b]
    produces (it has a dependency, and each of its dependencies names that
    identifier), and let the resolver hold every dependency of [b].  When
    the identifiers of [a] and [b] are distinct and the resolver holds
    neither, growing the resolver as [with([b]).with([a])] and registering
    the batch [with([a, b])] both return resolvers, with the same registry
    and hence the same result of [resolve] for every reference.  When the
    resolver holds one of the two identifiers already, or the two are
    equal, both ways throw and no resolver is returned. *)
Theorem with_incremental σ r a b :
  dep_ids objs a ≠ [] →
  (∀ d, d ∈ dep_ids objs a → d = api_id objs b) →
  (∀ d, d ∈ dep_ids objs b → registered σ r d = true) →
  let incremental :=
    match with_ objs r [b] σ with
    | (Return r1, σ1) => with_ objs r1 [a] σ1
    | failed => failed
    end in
  let single := with_ objs r [a; b] σ in
  (registered σ r (api_id objs a) = false →
   registered σ r (api_id objs b) = false →
   api_id objs a ≠ api_id objs b →
   ∃ r2 σ2 r' σ',
     incremental = (Return r2, σ2) ∧ single = (Return r', σ')
     ∧ registry σ2 r2 = registry σ' r'
     ∧ ∀ x : ApiRef V, resolve σ2 r2 x = resolve σ' r' x)
  ∧ (registered σ r (api_id objs a) = true
     ∨ registered σ r (api_id objs b) = true
     ∨ api_id objs a = api_id objs b →
     is_Throw incremental.1 = true ∧ is_Throw single.1 = true).
Proof.
  intros Hdeps Ha Hb incremental single. split.
  - intros Hrega Hregb Hne. unfold incremental, single.
    rewrite (with_single_registered σ r b) by done.
    set (m1 := instantiate_map objs (registry σ r) b).
    assert (with_ objs {| apis := length σ |} [a] (σ ++ [m1])
            = (Return {| apis := length (σ ++ [m1]) |},
               (σ ++ [m1]) ++ [instantiate_map objs m1 a])) as ->.
    { rewrite with_single_registered; [by rewrite registry_new| |].
      - rewrite registered_new. apply bool_decide_eq_false_2.
        unfold m1, instantiate_map. rewrite lookup_insert_ne by done.
        apply Map_has_false in Hrega. unfold registry. rewrite Hrega.
        by intros [? ?].
      - intros d ->%Ha. rewrite registered_new.
        apply bool_decide_eq_true_2. unfold m1, instantiate_map.
        rewrite lookup_insert_eq. by eexists. }
    assert (with_ objs r [a; b] σ
            = (Return {| apis := length σ |},
               σ ++ [instantiate_map objs m1 a])) as ->.
    { rewrite with_eq, enqueueAll_cons, has_copy, Hrega.
      change (length [a; b]) with 2. rewrite place_S.
      rewrite (enqueueDeps_same _ _ _ _ _ _ _ b (api_id objs b)).
      - destruct (Object_values (deps (objs a))) as [|depRef ds] eqn:Hds.
        { destruct Hdeps. unfold dep_ids. by rewrite Hds. }
        rewrite (bool_decide_eq_false_2 (b ∈ []))
          by apply not_elem_of_nil.
        rewrite (bool_decide_eq_false_2 (a ∈ [] ++ [b])).
        2:{ intros ->%list_elem_of_singleton. done. }
        rewrite enqueueAll_cons, has_copy, Hregb, place_registered.
        + rewrite bool_decide_eq_true_2; [done|].
          apply elem_of_cons. by left.
        + intros s ->%list_elem_of_singleton. by rewrite has_copy.
        + intros d Hd. rewrite has_copy. by apply Hb.
      - intros ?%list_elem_of_singleton. congruence.
      - by rewrite has_copy.
      - apply sole_producer; [apply elem_of_cons; right; by left|].
        intros g [->|[->|[]%elem_of_nil]%elem_of_cons]%elem_of_cons ?;
          done.
      - intros q'. apply place_registered.
        + intros s [->| ->%list_elem_of_singleton]%elem_of_cons;
            by rewrite has_copy.
        + intros d Hd. rewrite has_copy. by apply Hb.
      - apply Ha. }
    eexists _, _, _, _. split_and!; [done|done| |].
    + by rewrite !registry_new.
    + intros x. by rewrite !resolve_registry, !registry_new.
  - intros Hcase. split.
    + unfold incremental.
      destruct (registered σ r (api_id objs b)) eqn:Hregb.
      { by rewrite with_registered_head. }
      rewrite with_single_registered by done.
      rewrite with_registered_head; [done|].
      rewrite registered_new. apply bool_decide_eq_true_2.
      unfold instantiate_map.
      destruct (decide (api_id objs b = api_id objs a)) as [->|Hne].
      { rewrite lookup_insert_eq. by eexists. }
      rewrite lookup_insert_ne by done.
      destruct Hcase as [Hrega|[?|?]]; [|congruence..].
      by apply Map_has_true in Hrega.
    + destruct (registered σ r (api_id objs a)) eqn:Hrega.
      { eapply with_not_fresh; [|done]. apply elem_of_cons. by left. }
      destruct Hcase as [?|[Hregb|Heq]]; [done| |].
      { eapply with_not_fresh; [|done].
        apply elem_of_cons. right. apply elem_of_cons. by left. }
      unfold single.
      rewrite with_eq, enqueueAll_cons, has_copy, Hrega.
      change (length [a; b]) with 2. rewrite place_S.
      destruct (Object_values (deps (objs a))) as [|depRef ds] eqn:Hds.
      { destruct Hdeps. unfold dep_ids. by rewrite Hds. }
      rewrite enqueueDeps_cons, bool_decide_eq_true_2; [done|].
      apply list_elem_of_singleton. rewrite Heq. apply Ha.
      unfold dep_ids. rewrite Hds, fmap_cons. apply elem_of_cons. by left.
Qed.
End Claims.

(** ** Further properties of the resolver *)

Section ResolverMore.
Context `{JsValue V}.
Variable objs : loc → AnyApiFactory V.
Implicit Types (σ : store V) (r : ApiResolver) (f : loc) (d : string)
  (fs batch perm : list loc) (m : gmap string V).

(** What a returning [with] did: it instantiated a placed queue that
    holds every factory of the batch. *)
Lemma with_Return_inv σ r fs r' σ' :
  with_ objs r fs σ = (Return r', σ') →
  ∃ q, placed objs (σ ++ [registry σ r]) (length σ) fs q
    ∧ (∀ f, f ∈ fs → f ∈ q)
    ∧ r' = {| apis := length σ |}
    ∧ σ' = σ ++ [foldl (instantiate_map objs) (registry σ r) q].
Proof.
  rewrite with_eq.
  destruct (enqueueAll _ _ _ _ _ _ _) as [q| |] eqn:Hq; [|done..].
  intros [= <- <-].
  apply enqueueAll_return in Hq as (Hq & _ & Hall); [|constructor|done].
  by exists q.
Qed.

(** The keys of the registry that [with] returns. *)
Lemma with_Return_dom σ r fs r' σ' :
  with_ objs r fs σ = (Return r', σ') →
  dom (registry σ' r') = dom (registry σ r) ∪ list_to_set (produced objs fs).
Proof.
  intros (q & Hq & Hall & -> & ->)%with_Return_inv.
  rewrite registry_new. apply set_eq. intros k.
  rewrite elem_of_union, !elem_of_dom, elem_of_list_to_set.
  split.
  - intros Hk. destruct (decide (k ∈ produced objs q)) as [Hin|Hnin].
    + right. apply list_elem_of_fmap in Hin as (f & -> & Hf).
      apply list_elem_of_fmap_2.
      by destruct (placed_elem objs _ _ _ q f Hq Hf).
    + left. by rewrite run_other in Hk.
  - intros [Hk|(f & -> & Hf)%list_elem_of_fmap].
    + by apply run_is_Some.
    + by apply run_produced, Hall.
Qed.

(** A returning [with] keeps the entries of the receiver. *)
Lemma with_Return_keeps σ r fs r' σ' :
  with_ objs r fs σ = (Return r', σ') →
  ∀ k, is_Some (registry σ r !! k) →
    registry σ' r' !! k = registry σ r !! k.
Proof.
  intros (q & Hq & Hall & -> & ->)%with_Return_inv k Hk.
  rewrite registry_new.
  pose proof (placed_keeps objs _ _ fs q k Hq) as Hkeeps.
  rewrite Map_contents_new in Hkeeps. by apply Hkeeps.
Qed.

(** [with] writes to no map that existed before the call. *)
Lemma with_frame σ r fs l :
  l < length σ →
  Map_contents (with_ objs r fs σ).2 l = Map_contents σ l.
Proof.
  intros Hl. rewrite with_eq.
  destruct (enqueueAll _ _ _ _ _ _ _); simpl; by apply Map_contents_old.
Qed.

(** X1 — A returning [with] adds exactly the identifiers that the batch
    produces: the returned resolver holds an identifier exactly when the
    receiver holds it or a factory of the batch produces it, and it
    resolves the references that the receiver holds as the receiver does. *)
Theorem with_adds_produced σ r fs r' σ' :
  with_ objs r fs σ = (Return r', σ') →
  ∀ x : ApiRef V,
    (registered σ' r' (id x) = true
     ↔ registered σ r (id x) = true ∨ id x ∈ produced objs fs)
    ∧ (registered σ r (id x) = true → resolve σ' r' x = resolve σ r x).
Proof.
  intros Hwith x. split.
  - unfold registered. rewrite !Map_has_true, <-!elem_of_dom.
    fold (registry σ' r') (registry σ r).
    rewrite (with_Return_dom σ r fs r' σ' Hwith), elem_of_union.
    by rewrite elem_of_list_to_set.
  - intros Hreg%Map_has_true. rewrite !resolve_registry.
    by rewrite (with_Return_keeps σ r fs r' σ' Hwith).
Qed.

(** X2 — What the errors of [with] report.  The duplicate-registration
    error names an identifier that the receiver holds and a factory of the
    batch produces.  The chain of the other two errors starts at the
    identifier of a factory of the batch and follows dependencies among
    identifiers that the receiver does not hold, without repeating one;
    the missing-dependency error ends it with an identifier that neither
    the receiver holds nor the batch produces, the circular-dependency
    error with an identifier that is already on the chain. *)
Theorem with_Throw_sound σ r fs e :
  (with_ objs r fs σ).1 = Throw e →
  match e with
  | DuplicateRegistration i =>
      registered σ r i = true ∧ i ∈ produced objs fs
  | MissingDependency seen dep =>
      dep_chain objs fs (seen ++ [dep]) ∧ NoDup (seen ++ [dep])
      ∧ (∀ s, s ∈ seen ++ [dep] → registered σ r s = false)
      ∧ dep ∉ produced objs fs
  | CircularDependency seen dep =>
      dep_chain objs fs (seen ++ [dep]) ∧ NoDup seen ∧ dep ∈ seen
      ∧ (∀ s, s ∈ seen → registered σ r s = false)
  end.
Proof.
  rewrite with_eq.
  destruct (enqueueAll _ _ _ _ _ _ _) as [q|e'|] eqn:Hq; [done| |done].
  intros [= ->].
  apply enqueueAll_throw in Hq
    as [(f & Hf & Hhas & ->)|(f & q0 & Hf & Hhas & Hp)];
    rewrite has_copy in Hhas.
  { split; [done|]. by apply list_elem_of_fmap_2. }
  eapply (place_throw objs _ _ fs
    (λ seen g,
       g ∈ fs ∧ NoDup seen
       ∧ (∀ s, s ∈ seen → registered σ r s = false)
       ∧ (∃ p, seen = p ++ [api_id objs g])
       ∧ dep_chain objs fs seen)
    (λ e, match e with
          | DuplicateRegistration i =>
              registered σ r i = true ∧ i ∈ produced objs fs
          | MissingDependency seen dep =>
              dep_chain objs fs (seen ++ [dep]) ∧ NoDup (seen ++ [dep])
              ∧ (∀ s, s ∈ seen ++ [dep] → registered σ r s = false)
              ∧ dep ∉ produced objs fs
          | CircularDependency seen dep =>
              dep_chain objs fs (seen ++ [dep]) ∧ NoDup seen ∧ dep ∈ seen
              ∧ (∀ s, s ∈ seen → registered σ r s = false)
          end)); [| | | |exact Hp].
  - intros seen g d g' (Hg & Hnd & Hseen & [p Hp0] & Hchain)
      Hd Hnin Hreg [Hg' Hid]%producer_Some.
    rewrite has_copy in Hreg. split_and!; [done| | | |].
    + apply NoDup_app. split_and!; [done| |apply NoDup_singleton].
      by intros s Hs ->%list_elem_of_singleton.
    + intros s [Hs| ->%list_elem_of_singleton]%elem_of_app; [by apply Hseen|done].
    + exists seen. by rewrite Hid.
    + rewrite Hp0. apply dep_chain_snoc; [by rewrite <-Hp0|done..].
  - intros seen g d (Hg & Hnd & Hseen & [p Hp0] & Hchain) Hd Hin.
    split_and!; [|done..].
    rewrite Hp0. apply dep_chain_snoc; [by rewrite <-Hp0|done..].
  - intros seen g d (Hg & Hnd & Hseen & [p Hp0] & Hchain)
      Hd Hnin Hreg Hnone%producer_None.
    rewrite has_copy in Hreg. split_and!; [| | |done].
    + rewrite Hp0. apply dep_chain_snoc; [by rewrite <-Hp0|done..].
    + apply NoDup_app. split_and!; [done| |apply NoDup_singleton].
      by intros s Hs ->%list_elem_of_singleton.
    + intros s [Hs| ->%list_elem_of_singleton]%elem_of_app; [by apply Hseen|done].
  - split_and!; [done|apply NoDup_singleton| |by exists []|by constructor].
    by intros s ->%list_elem_of_singleton.
Qed.

Lemma with_Return_satisfiable σ r fs r' σ' :
  with_ objs r fs σ = (Return r', σ') → satisfiable objs σ r fs.
Proof.
  intros (q & Hq & Hall & _)%with_Return_inv f d Hf Hd.
  destruct (placed_elem objs _ _ _ q f Hq (Hall f Hf)) as (_ & _ & Hready).
  destruct (Hready d Hd) as [Hhas|(f' & [Hf' <-]%producer_Some & _)].
  - left. by rewrite has_copy in Hhas.
  - right. by apply list_elem_of_fmap_2.
Qed.

(** A placed queue of factories with distinct identifiers follows a
    topological numbering. *)
Lemma placed_ranked σ apis fs q :
  (∀ f g, f ∈ fs → g ∈ fs → api_id objs f = api_id objs g → f = g) →
  placed objs σ apis fs q →
  ∃ (rank : string → nat) (n : nat),
    (∀ g, g ∈ q → rank (api_id objs g) < n)
    ∧ ∀ g d, g ∈ q → d ∈ dep_ids objs g → Map_has σ apis d = false →
        rank d < rank (api_id objs g).
Proof.
  intros Hinj.
  induction 1 as [|q f Hq (rank & n & Hlt & Hrank) Hf Hin Hfresh Hready].
  { exists (λ _, 0), 0.
    split; [by intros g ?%elem_of_nil|by intros g d ?%elem_of_nil]. }
  assert (∀ g, g ∈ q → api_id objs g ≠ api_id objs f) as Hne.
  { intros g Hg Heq. destruct (placed_elem objs _ _ _ q g Hq Hg) as (Hgin & _).
    apply Hinj in Heq; [|done..]. by subst. }
  assert (∀ g d, ready objs σ apis fs q g → d ∈ dep_ids objs g →
            Map_has σ apis d = false →
            d ≠ api_id objs f ∧ rank d < n) as Hdep.
  { intros g d Hr Hd Hhas.
    destruct (Hr d Hd) as [?|(g' & [_ <-]%producer_Some & Hg')]; [congruence|].
    split; [by apply Hne|by apply Hlt]. }
  exists (λ i, if decide (i = api_id objs f) then n else rank i), (S n).
  split.
  - intros g [Hg| ->%list_elem_of_singleton]%elem_of_app.
    + rewrite decide_False by (by apply Hne). pose proof (Hlt g Hg). lia.
    + rewrite decide_True by done. lia.
  - intros g d [Hg| ->%list_elem_of_singleton]%elem_of_app Hd Hhas.
    + destruct (placed_elem objs _ _ _ q g Hq Hg) as (_ & _ & Hr).
      destruct (Hdep g d Hr Hd Hhas) as [Hdne _].
      rewrite !decide_False by (done || by apply Hne).
      by apply Hrank.
    + destruct (Hdep f d Hready Hd Hhas) as [Hdne Hdlt].
      by rewrite decide_False, decide_True.
Qed.

Lemma with_Return_acyclic σ r fs r' σ' :
  NoDup (produced objs fs) →
  with_ objs r fs σ = (Return r', σ') → acyclic objs σ r fs.
Proof.
  intros Hnd (q & Hq & Hall & _)%with_Return_inv.
  destruct (placed_ranked _ _ fs q (λ f g, produced_inj objs fs f g Hnd) Hq)
    as (rank & n & _ & Hrank).
  exists rank. intros f d Hf Hd Hreg. apply Hrank; [by apply Hall|done|].
  by rewrite has_copy.
Qed.

(** X3 — For a batch of factories with pairwise distinct identifiers,
    [with] returns exactly when the batch produces no identifier that the
    receiver holds, each of its dependencies is held by the receiver or
    produced by the batch, and its dependencies are acyclic. *)
Theorem with_returns_iff σ r fs :
  NoDup (produced objs fs) →
  (∃ r' σ', with_ objs r fs σ = (Return r', σ'))
  ↔ fresh objs σ r fs ∧ satisfiable objs σ r fs ∧ acyclic objs σ r fs.
Proof.
  intros Hnd. split.
  - intros (r' & σ' & Hwith). split_and!.
    + by eapply with_Return_fresh.
    + by eapply with_Return_satisfiable.
    + by eapply with_Return_acyclic.
  - intros (Hfresh & Hsat & Hacyc).
    destruct (with_values objs σ r fs) as (r' & σ' & Hwith & _); [done..|].
    by exists r', σ'.
Qed.

(** What a returning [with] computed, for distinct identifiers. *)
Lemma with_Return_values σ r fs r' σ' :
  NoDup (produced objs fs) →
  with_ objs r fs σ = (Return r', σ') →
  (∀ k, is_Some (registry σ r !! k) →
     registry σ' r' !! k = registry σ r !! k)
  ∧ (∀ f, f ∈ fs →
       registry σ' r' !! api_id objs f =
       Some (factory (objs f)
               (mapValues (deps (objs f))
                  (λ ref, default undefined (registry σ' r' !! id ref))))).
Proof.
  intros Hnd Hwith.
  destruct (with_values objs σ r fs) as (r1 & σ1 & Hwith1 & Hkeeps & Hvalues);
    [done|by eapply with_Return_fresh|by eapply with_Return_satisfiable
    |by eapply with_Return_acyclic|].
  rewrite Hwith in Hwith1. by injection Hwith1 as <- <-.
Qed.

(** The registry that [with] returns is the only map that keeps the
    entries of the receiver, adds the identifiers of the batch and gives
    each the value of its construction function on the values of its
    dependencies. *)
Lemma registry_determined σ r fs m :
  NoDup (produced objs fs) → fresh objs σ r fs →
  satisfiable objs σ r fs → acyclic objs σ r fs →
  (∀ k, is_Some (registry σ r !! k) → m !! k = registry σ r !! k) →
  (∀ k, is_Some (m !! k) →
     is_Some (registry σ r !! k) ∨ k ∈ produced objs fs) →
  (∀ f, f ∈ fs →
     m !! api_id objs f =
     Some (factory (objs f)
             (mapValues (deps (objs f))
                (λ ref, default undefined (m !! id ref))))) →
  ∃ r' σ', with_ objs r fs σ = (Return r', σ') ∧ registry σ' r' = m.
Proof.
  intros Hnd Hfresh Hsat Hacyc Hkeeps Hdom Hvalues.
  destruct (with_canonical objs σ r fs (λ i, default undefined (m !! i)))
    as (r' & σ' & Hwith & Hres); [done..| |].
  { intros f Hf. rewrite Hvalues by done. simpl. f_equal.
    apply mapValues_dep_ext. intros ref Href.
    destruct (registered σ r (id ref)) eqn:Hreg; [|done].
    apply Map_has_true in Hreg. unfold Map_get.
    fold (registry σ r). by rewrite (Hkeeps _ Hreg). }
  exists r', σ'. split; [done|].
  destruct (with_Return_values σ r fs r' σ' Hnd Hwith) as [Hkeeps' Hvalues'].
  pose proof (with_Return_dom σ r fs r' σ' Hwith) as Hdom'.
  apply map_eq. intros k.
  destruct (registry σ r !! k) as [v|] eqn:Hk.
  { rewrite Hkeeps', Hkeeps; rewrite ?Hk; by eauto. }
  destruct (decide (k ∈ produced objs fs)) as [(f & -> & Hf)%list_elem_of_fmap|Hnin].
  - specialize (Hres f Hf). rewrite resolve_registry in Hres.
    change (id (api (objs f))) with (api_id objs f) in Hres.
    rewrite Hvalues', Hvalues in Hres |- * by done. simpl in Hres.
    by rewrite Hres.
  - assert (registry σ' r' !! k = None) as ->.
    { apply not_elem_of_dom. rewrite Hdom', elem_of_union, elem_of_dom.
      rewrite elem_of_list_to_set, Hk. intros [[? ?]|?]; done. }
    symmetry. apply eq_None_not_Some. intros [Hs|Hp]%Hdom; [|done].
    rewrite Hk in Hs. by destruct Hs.
Qed.
Lemma batch_hyps_perm σ r batch perm :
  batch ≡ₚ perm →
  fresh objs σ r batch ∧ satisfiable objs σ r batch ∧ acyclic objs σ r batch →
  fresh objs σ r perm ∧ satisfiable objs σ r perm ∧ acyclic objs σ r perm.
Proof.
  intros Hperm (Hfresh & Hsat & [rank Hrank]).
  assert (∀ f, f ∈ perm ↔ f ∈ batch) as Hin
    by (intros f; by rewrite Hperm).
  split_and!.
  - intros f Hf%Hin. by apply Hfresh.
  - intros f d Hf%Hin Hd.
    destruct (Hsat f d Hf Hd) as [?|(g & ? & Hg)%list_elem_of_fmap];
      [by left|right].
    apply list_elem_of_fmap. exists g. by rewrite Hin.
  - exists rank. intros f d Hf%Hin. by apply Hrank.
Qed.

(** X4 — For a batch of factories with pairwise distinct identifiers, the
    arrangement of the batch does not matter: when [with] returns for one
    arrangement it returns the same resolver, with the same registry, for
    every other; and when it throws for one it throws for every other. *)
Theorem with_permutation σ r batch perm :
  NoDup (produced objs batch) → batch ≡ₚ perm →
  (is_Return (with_ objs r batch σ).1 = true →
   with_ objs r perm σ = with_ objs r batch σ)
  ∧ (is_Throw (with_ objs r batch σ).1 = true →
     is_Throw (with_ objs r perm σ).1 = true).
Proof.
  intros Hnd Hperm.
  assert (NoDup (produced objs perm)) as Hnd'
    by (unfold produced; by rewrite <-Hperm).
  split.
  - destruct (with_ objs r batch σ) as [[r'| |] σ'] eqn:Hwith; [|done..].
    intros _.
    destruct (batch_hyps_perm σ r batch perm Hperm)
      as (Hfresh & Hsat & Hacyc).
    { split_and!; [by eapply with_Return_fresh
                  |by eapply with_Return_satisfiable
                  |by eapply with_Return_acyclic]. }
    destruct (with_Return_values σ r batch r' σ' Hnd Hwith)
      as [Hkeeps Hvalues].
    destruct (registry_determined σ r perm (registry σ' r'))
      as (r2 & σ2 & Hwith2 & Hreg); [done..| | |].
    + intros k Hk%elem_of_dom.
      rewrite (with_Return_dom σ r batch r' σ' Hwith) in Hk.
      apply elem_of_union in Hk as [Hk|Hk]; [left; by apply elem_of_dom|].
      right. apply elem_of_list_to_set in Hk. unfold produced.
      by rewrite <-Hperm.
    + intros f Hf. apply Hvalues. by rewrite Hperm.
    + rewrite Hwith2.
      apply with_Return_inv in Hwith as (q1 & _ & _ & Hr1 & Hs1).
      apply with_Return_inv in Hwith2 as (q2 & _ & _ & Hr2 & Hs2).
      subst r' σ' r2 σ2. rewrite !registry_new in Hreg. by rewrite Hreg.
  - intros Hthrow. apply with_Throw_or_Return.
    destruct (with_ objs r perm σ) as [[r'| |] σ'] eqn:Hwith; [|done..].
    destruct (batch_hyps_perm σ r perm batch) as (Hfresh & Hsat & Hacyc);
      [done| |].
    { split_and!; [by eapply with_Return_fresh
                  |by eapply with_Return_satisfiable
                  |by eapply with_Return_acyclic]. }
    destruct (with_values objs σ r batch) as (r1 & σ1 & Hwith1 & _);
      [done..|].
    by rewrite Hwith1 in Hthrow.
Qed.

Lemma registered_dom σ r k :
  registered σ r k = true ↔ k ∈ dom (registry σ r).
Proof. unfold registered. by rewrite Map_has_true, elem_of_dom. Qed.

Lemma not_registered_dom σ r k :
  registered σ r k = false ↔ k ∉ dom (registry σ r).
Proof. rewrite <-registered_dom. by destruct (registered σ r k). Qed.

(** Two steps that return give what one step gives. *)
Lemma with_two_steps σ r fs1 fs2 r1 σ1 r2 σ2 :
  NoDup (produced objs (fs1 ++ fs2)) →
  with_ objs r fs1 σ = (Return r1, σ1) →
  with_ objs r1 fs2 σ1 = (Return r2, σ2) →
  ∃ r' σ', with_ objs r (fs1 ++ fs2) σ = (Return r', σ')
    ∧ registry σ' r' = registry σ2 r2.
Proof.
  intros Hnd Hw1 Hw2.
  assert (NoDup (produced objs fs1) ∧ NoDup (produced objs fs2)
          ∧ ∀ k, k ∈ produced objs fs1 → k ∉ produced objs fs2)
    as (Hnd1 & Hnd2 & Hdisj).
  { unfold produced in *. rewrite fmap_app in Hnd.
    apply NoDup_app in Hnd as (? & ? & ?). done. }
  pose proof (with_Return_dom σ r fs1 r1 σ1 Hw1) as Hdom1.
  pose proof (with_Return_dom σ1 r1 fs2 r2 σ2 Hw2) as Hdom2.
  destruct (with_Return_values σ r fs1 r1 σ1 Hnd1 Hw1) as [Hkeeps1 Hvalues1].
  destruct (with_Return_values σ1 r1 fs2 r2 σ2 Hnd2 Hw2) as [Hkeeps2 Hvalues2].
  pose proof (with_Return_fresh objs σ r fs1 r1 σ1 Hw1) as Hfresh1.
  pose proof (with_Return_fresh objs σ1 r1 fs2 r2 σ2 Hw2) as Hfresh2.
  pose proof (with_Return_satisfiable σ r fs1 r1 σ1 Hw1) as Hsat1.
  pose proof (with_Return_satisfiable σ1 r1 fs2 r2 σ2 Hw2) as Hsat2.
  destruct (with_Return_acyclic σ r fs1 r1 σ1 Hnd1 Hw1) as [rank1 Hrank1].
  destruct (with_Return_acyclic σ1 r1 fs2 r2 σ2 Hnd2 Hw2) as [rank2 Hrank2].
  assert (∀ k, registered σ1 r1 k = true ↔
               registered σ r k = true ∨ k ∈ produced objs fs1) as Hreg1.
  { intros k. rewrite !registered_dom, Hdom1, elem_of_union.
    by rewrite elem_of_list_to_set. }
  assert (∀ k, k ∈ produced objs (fs1 ++ fs2) ↔
               k ∈ produced objs fs1 ∨ k ∈ produced objs fs2) as Hprod.
  { intros k. unfold produced. by rewrite fmap_app, elem_of_app. }
  apply registry_determined; [done| | | | | |].
  - intros f [Hf|Hf]%elem_of_app; [by apply Hfresh1|].
    destruct (registered σ r (api_id objs f)) eqn:Hreg; [|done].
    rewrite <-(Hfresh2 f Hf). symmetry. apply Hreg1. by left.
  - intros f d [Hf|Hf]%elem_of_app Hd; rewrite Hprod.
    + destruct (Hsat1 f d Hf Hd); [by left|right; by left].
    + destruct (Hsat2 f d Hf Hd) as [[?|?]%Hreg1|?];
        [by left|right; by left|right; by right].
  - exists (λ i, if decide (i ∈ produced objs fs2)
                 then S (max_list (rank1 <$> produced objs fs1)) + rank2 i
                 else rank1 i).
    intros f d [Hf|Hf]%elem_of_app Hd Hreg.
    + assert (api_id objs f ∈ produced objs fs1) as Hid
        by (by apply list_elem_of_fmap_2).
      destruct (Hsat1 f d Hf Hd) as [?|Hdp]; [congruence|].
      rewrite !decide_False by (by apply Hdisj). by apply Hrank1.
    + assert (api_id objs f ∈ produced objs fs2) as Hid
        by (by apply list_elem_of_fmap_2).
      rewrite (decide_True _ _ Hid).
      destruct (decide (d ∈ produced objs fs2)) as [Hd2|Hd2].
      * apply list_elem_of_fmap in Hd2 as (g & -> & Hg).
        pose proof (Hrank2 f _ Hf Hd (Hfresh2 g Hg)). lia.
      * destruct (Hsat2 f d Hf Hd) as [[?|Hd1]%Hreg1|?]; [congruence| |done].
        assert (rank1 d ≤ max_list (rank1 <$> produced objs fs1))
          by (by apply max_list_elem_of_le, list_elem_of_fmap_2).
        lia.
  - intros k Hk. rewrite Hkeeps2, Hkeeps1; [done..|].
    rewrite Hkeeps1 by done. done.
  - intros k Hk%elem_of_dom. rewrite Hdom2, Hdom1 in Hk.
    rewrite Hprod. rewrite !elem_of_union, !elem_of_list_to_set in Hk.
    rewrite elem_of_dom in Hk. tauto.
  - intros f [Hf|Hf]%elem_of_app; [|by apply Hvalues2].
    assert (∀ k, is_Some (registry σ1 r1 !! k) →
              registry σ2 r2 !! k = registry σ1 r1 !! k) as Hk2
      by (by intros k ?; apply Hkeeps2).
    rewrite Hk2 by (rewrite Hvalues1 by done; by eexists).
    rewrite Hvalues1 by done. f_equal. f_equal.
    apply mapValues_dep_ext. intros ref Href. f_equal. symmetry.
    apply Hk2. apply elem_of_dom, registered_dom, Hreg1.
    destruct (Hsat1 f _ Hf Href); [by left|by right].
Qed.
(** X5 — Growing a resolver in two steps gives what one step gives.  Let
    the factories of two batches have pairwise distinct identifiers and
    let [with] return for the first batch.  Then [with] returns for the
    second batch, on the resolver so obtained, exactly when it returns for
    the two batches together, on the first resolver; and the two returned
    resolvers have the same registry. *)
Theorem with_with σ r fs1 fs2 r1 σ1 :
  NoDup (produced objs (fs1 ++ fs2)) →
  with_ objs r fs1 σ = (Return r1, σ1) →
  (∀ r2 σ2, with_ objs r1 fs2 σ1 = (Return r2, σ2) →
     ∃ r' σ', with_ objs r (fs1 ++ fs2) σ = (Return r', σ')
       ∧ registry σ' r' = registry σ2 r2)
  ∧ (∀ r' σ', with_ objs r (fs1 ++ fs2) σ = (Return r', σ') →
       ∃ r2 σ2, with_ objs r1 fs2 σ1 = (Return r2, σ2)
         ∧ registry σ2 r2 = registry σ' r').
Proof.
  intros Hnd Hw1. split; [intros r2 σ2; by apply with_two_steps|].
  intros r' σ' Hw.
  assert (NoDup (produced objs fs2)
          ∧ ∀ k, k ∈ produced objs fs1 → k ∉ produced objs fs2)
    as (Hnd2 & Hdisj).
  { unfold produced in *. rewrite fmap_app in Hnd.
    apply NoDup_app in Hnd as (? & ? & ?). done. }
  pose proof (with_Return_dom σ r fs1 r1 σ1 Hw1) as Hdom1.
  assert (∀ k, registered σ1 r1 k = true ↔
               registered σ r k = true ∨ k ∈ produced objs fs1) as Hreg1.
  { intros k. rewrite !registered_dom, Hdom1, elem_of_union.
    by rewrite elem_of_list_to_set. }
  pose proof (with_Return_fresh objs σ r _ r' σ' Hw) as Hfresh.
  pose proof (with_Return_satisfiable σ r _ r' σ' Hw) as Hsat.
  destruct (with_Return_acyclic σ r _ r' σ' Hnd Hw) as [rank Hrank].
  destruct (with_values objs σ1 r1 fs2) as (r2 & σ2 & Hw2 & _); [done| | | |].
  - intros f Hf.
    destruct (registered σ1 r1 (api_id objs f)) eqn:Hreg; [|done].
    apply Hreg1 in Hreg as [Hreg|Hin].
    + rewrite Hfresh in Hreg; [done|]. apply elem_of_app. by right.
    + destruct (Hdisj _ Hin). by apply list_elem_of_fmap_2.
  - intros f d Hf Hd.
    destruct (Hsat f d) as [?|Hin]; [apply elem_of_app; by right|done| |].
    + left. apply Hreg1. by left.
    + unfold produced in Hin. rewrite fmap_app in Hin.
      apply elem_of_app in Hin as [?|?]; [left; apply Hreg1|]; by right.
  - exists rank. intros f d Hf Hd Hreg. apply Hrank; [|done|].
    + apply elem_of_app. by right.
    + destruct (registered σ r d) eqn:Hreg0; [|done].
      rewrite <-Hreg. symmetry. apply Hreg1. by left.
  - exists r2, σ2. split; [done|].
    destruct (with_two_steps σ r fs1 fs2 r1 σ1 r2 σ2 Hnd Hw1 Hw2)
      as (r3 & σ3 & Hw3 & Heq).
    rewrite Hw in Hw3. injection Hw3 as <- <-. done.
Qed.

(** *** The same factory object more than once *)

Lemma foldl_push_included (added q : list loc) :
  (∀ x, x ∈ added → x ∈ q) → foldl push q added = q.
Proof.
  induction added as [|x added IH]; intros Hin; simpl; [done|].
  unfold push at 2. rewrite bool_decide_eq_true_2.
  - apply IH. intros y Hy. apply Hin. by right.
  - apply Hin. by left.
Qed.

Lemma foldl_push_elem (added q : list loc) x :
  x ∈ added → x ∈ foldl push q added.
Proof.
  assert (∀ added q y, y ∈ q → y ∈ foldl push q added) as Hmono.
  { clear. induction added as [|x added IH]; intros q y Hy; simpl; [done|].
    apply IH. unfold push. case_bool_decide; [done|].
    apply elem_of_app. by left. }
  revert q. induction added as [|y added IH]; intros q; [by intros ?%elem_of_nil|].
  intros [->|Hx]%elem_of_cons; simpl; [|by apply IH].
  apply Hmono. unfold push. case_bool_decide; [done|].
  apply elem_of_app. right. by apply list_elem_of_singleton.
Qed.

(** What a placement appends does not depend on the queue it starts
    from, and neither does whether it returns. *)
Lemma enqueueDeps_added σ apis factories rec seen ds q q' :
  (∀ f' seen' q0 q1, rec f' seen' q0 = Return q1 →
     ∃ added, ∀ q2, rec f' seen' q2 = Return (foldl push q2 added)) →
  enqueueDeps objs σ apis factories rec seen ds q = Return q' →
  ∃ added, ∀ q2,
    enqueueDeps objs σ apis factories rec seen ds q2
    = Return (foldl push q2 added).
Proof.
  intros Hrec. revert q.
  induction ds as [|depRef ds IH]; intros q; [by exists []|].
  rewrite enqueueDeps_cons. case_bool_decide as Hseen; [done|].
  destruct (Map_has σ apis (id depRef)) eqn:Hhas; cbn [negb].
  - intros [added Hadded]%IH. exists added. intros q2.
    rewrite enqueueDeps_cons, bool_decide_eq_false_2, Hhas by done.
    apply Hadded.
  - destruct (find _ _) as [f'|] eqn:Hfind; [|done].
    destruct (rec f' (seen ++ [id depRef]) q) as [q1| |] eqn:Hr; [|done..].
    destruct (Hrec _ _ _ _ Hr) as [added1 Hadded1].
    intros [added2 Hadded2]%IH. exists (added1 ++ added2). intros q2.
    rewrite enqueueDeps_cons, bool_decide_eq_false_2, Hhas by done.
    cbn [negb]. by rewrite Hfind, Hadded1, Hadded2, foldl_app.
Qed.

Lemma place_added σ apis factories fuel f seen q q' :
  enqueueDepthFirst objs σ apis factories fuel f seen q = Return q' →
  ∃ added, ∀ q2,
    enqueueDepthFirst objs σ apis factories fuel f seen q2
    = Return (foldl push q2 added).
Proof.
  revert f seen q q'.
  induction fuel as [|fuel IH]; intros f seen q q'; [done|].
  rewrite place_S.
  destruct (enqueueDeps _ _ _ _ _ _ _ _) as [q1| |] eqn:Hloop; [|done..].
  intros _.
  apply enqueueDeps_added in Hloop as [added Hadded]; [|by eauto].
  exists (added ++ [f]). intros q2.
  by rewrite place_S, Hadded, foldl_app.
Qed.

(** After the first loop has returned, placing a factory of the batch
    again changes nothing. *)
Lemma enqueueAll_again σ apis factories fuel fs q0 q f :
  placed objs σ apis factories q0 →
  (∀ g, g ∈ fs → g ∈ factories) →
  enqueueAll objs σ apis factories fuel fs q0 = Return q →
  f ∈ fs →
  Map_has σ apis (api_id objs f) = false
  ∧ enqueueDepthFirst objs σ apis factories fuel f [api_id objs f] q
    = Return q.
Proof.
  intros Hq0 Hfs. revert q0 Hq0.
  induction fs as [|g fs IH]; intros q0 Hq0; [by intros _ ?%elem_of_nil|].
  rewrite enqueueAll_cons.
  destruct (Map_has σ apis (api_id objs g)) eqn:Hhas; [done|].
  destruct (enqueueDepthFirst objs σ apis factories fuel g
              [api_id objs g] q0) as [q1| |] eqn:Hp; [|done..].
  intros Hrest Hf.
  pose proof Hp as (Hq1 & Hg1 & Hsub1)%place_return;
    [|done|apply Hfs; by left|done].
  pose proof Hrest as (_ & Hsub & _)%enqueueAll_return;
    [|done|intros x Hx; apply Hfs; by right].
  apply elem_of_cons in Hf as [->|Hf].
  - split; [done|].
    destruct (place_added _ _ _ _ _ _ _ _ Hp) as [added Hadded].
    rewrite Hadded. f_equal. apply foldl_push_included.
    intros x Hx. apply Hsub. rewrite Hadded in Hp.
    injection Hp as <-. by apply foldl_push_elem.
  - eapply IH; [|exact Hq1|done..]. intros x Hx. apply Hfs. by right.
Qed.

Lemma find_snoc_in {A} (P : A → bool) (l : list A) (x : A) :
  x ∈ l → find P (l ++ [x]) = find P l.
Proof.
  intros Hx. induction l as [|y l IH]; [by apply elem_of_nil in Hx|].
  simpl. destruct (P y) eqn:Hy; [done|].
  apply elem_of_cons in Hx as [->|Hx]; [|by apply IH].
  clear IH. induction l as [|z l IH]; simpl; [by rewrite Hy|].
  by destruct (P z).
Qed.

(** The placement sees the batch through [find] only. *)
Lemma enqueueDeps_find_ext σ apis fs1 fs2 rec1 rec2 seen ds q :
  (∀ d, find (λ f, bool_decide (api_id objs f = d)) fs1
        = find (λ f, bool_decide (api_id objs f = d)) fs2) →
  (∀ f' seen' q', rec1 f' seen' q' = rec2 f' seen' q') →
  enqueueDeps objs σ apis fs1 rec1 seen ds q
  = enqueueDeps objs σ apis fs2 rec2 seen ds q.
Proof.
  intros Hfind Hrec. revert q.
  induction ds as [|depRef ds IH]; intros q; [done|].
  rewrite !enqueueDeps_cons, Hfind.
  case_bool_decide; [done|].
  destruct (Map_has σ apis (id depRef)); cbn [negb]; [done|].
  destruct (find _ _); [|done]. rewrite Hrec.
  by destruct (rec2 _ _ _).
Qed.

Lemma place_find_ext σ apis fs1 fs2 fuel f seen q :
  (∀ d, find (λ f, bool_decide (api_id objs f = d)) fs1
        = find (λ f, bool_decide (api_id objs f = d)) fs2) →
  enqueueDepthFirst objs σ apis fs1 fuel f seen q
  = enqueueDepthFirst objs σ apis fs2 fuel f seen q.
Proof.
  intros Hfind. revert f seen q.
  induction fuel as [|fuel IH]; intros f seen q; [done|].
  rewrite !place_S.
  by rewrite (enqueueDeps_find_ext σ apis fs1 fs2 _
                (enqueueDepthFirst objs σ apis fs2 fuel)).
Qed.

Lemma enqueueAll_find_ext σ apis fs1 fs2 fuel fs q :
  (∀ d, find (λ f, bool_decide (api_id objs f = d)) fs1
        = find (λ f, bool_decide (api_id objs f = d)) fs2) →
  enqueueAll objs σ apis fs1 fuel fs q
  = enqueueAll objs σ apis fs2 fuel fs q.
Proof.
  intros Hfind. revert q. induction fs as [|f fs IH]; intros q; [done|].
  rewrite !enqueueAll_cons, (place_find_ext σ apis fs1 fs2) by done.
  destruct (Map_has σ apis (api_id objs f)); [done|].
  by destruct (enqueueDepthFirst _ _ _ _ _ _ _ _).
Qed.

(** X6 — A factory object that is in the batch already can be passed
    again: [with] then does what it does without the repetition, whether
    it returns or throws. *)
Theorem with_repeated σ r fs f :
  f ∈ fs → with_ objs r (fs ++ [f]) σ = with_ objs r fs σ.
Proof.
  intros Hf. rewrite !with_eq.
  set (σ1 := σ ++ [registry σ r]).
  assert (enqueueAll objs σ1 (length σ) (fs ++ [f])
            (length (fs ++ [f])) (fs ++ [f]) []
          = enqueueAll objs σ1 (length σ) fs (length fs) fs []) as ->;
    [|done].
  rewrite (enqueueAll_find_ext σ1 (length σ) (fs ++ [f]) fs)
    by (intros d; by apply find_snoc_in).
  destruct (enqueueAll_fuel objs σ1 (length σ) fs (length fs)
              (length (fs ++ [f])) fs []) as [Heq _];
    [done|apply distinct_ids_le|rewrite length_app; simpl;
     pose proof (distinct_ids_le objs fs); lia|].
  rewrite Heq, enqueueAll_app.
  destruct (enqueueAll objs σ1 (length σ) fs (length (fs ++ [f])) fs [])
    as [q| |] eqn:Hq; [|done..].
  destruct (enqueueAll_again σ1 (length σ) fs (length (fs ++ [f])) fs [] q f)
    as [Hhas Hp]; [constructor|done..|].
  by rewrite enqueueAll_cons, Hhas, Hp.
Qed.

(** X7 — The resolver that the static [with] returns holds exactly the
    identifiers that the batch produces. *)
Theorem with_static_dom σ fs r' σ' :
  with_static objs fs σ = (Return r', σ') →
  dom (registry σ' r') = list_to_set (produced objs fs).
Proof.
  unfold with_static, empty, Map_new. intros Hwith.
  apply with_Return_dom in Hwith. rewrite Hwith, registry_new.
  by rewrite dom_empty_L, (left_id_L ∅ (∪)).
Qed.
(** X8 — When [with] returns for a batch of factories with pairwise
    distinct identifiers, the returned resolver resolves the reference of
    each factory of the batch to the value of its construction function on
    the object that maps each dependency name to what the returned
    resolver resolves the dependency to. *)
Theorem with_resolves σ r fs r' σ' :
  NoDup (produced objs fs) →
  with_ objs r fs σ = (Return r', σ') →
  ∀ f, f ∈ fs →
    registered σ' r' (api_id objs f) = true
    ∧ resolve σ' r' (api (objs f))
      = factory (objs f) (mapValues (deps (objs f)) (resolve σ' r')).
Proof.
  intros Hnd Hwith f Hf.
  destruct (with_Return_values σ r fs r' σ' Hnd Hwith) as [_ Hvalues].
  specialize (Hvalues f Hf). split.
  - apply Map_has_true. fold (registry σ' r'). rewrite Hvalues. by eexists.
  - rewrite resolve_registry.
    change (id (api (objs f))) with (api_id objs f). by rewrite Hvalues.
Qed.
End ResolverMore.

(** ** RootContext *)

Section ContextFacts.
Context `{JsValue V}.
Variable objs : loc → AnyApiFactory V.
Implicit Types (h : heap V) (this ctx : RootContext).

(** X9 — [withApi] derives a context and leaves its receiver as it was:
    whether it returns or throws, the receiver resolves every reference
    as before and no abort controller is made; a returned context has the
    abort signal of its receiver, resolves what the receiver held to the
    same value, and holds the identifier of every factory passed. *)
Theorem withApi_derives h this factory :
  valid (maps h) this.(apiResolver) →
  let h' := (withApi objs this factory h).2 in
  (∀ x : ApiRef V, resolveApi this x h' = resolveApi this x h)
  ∧ controllers h' = controllers h
  ∧ ∀ ctx, (withApi objs this factory h).1 = Return ctx →
      abortSignal ctx = abortSignal this
      ∧ (∀ x : ApiRef V,
           registered (maps h) this.(apiResolver) (id x) = true →
           resolveApi ctx x h' = resolveApi this x h)
      ∧ (∀ f, f ∈ flat factory →
           registered (maps h') ctx.(apiResolver) (api_id objs f) = true).
Proof.
  intros Hvalid. unfold withApi, resolveApi.
  pose proof (with_frame objs (maps h) this.(apiResolver) (flat factory)
                _ Hvalid) as Hframe.
  destruct (with_ objs this.(apiResolver) (flat factory) (maps h))
    as [o σ] eqn:Hwith. simpl in *.
  split_and!; [|done|].
  - intros x. rewrite !resolve_registry. unfold registry. by rewrite Hframe.
  - intros ctx Hctx. destruct o as [r'| |]; [|done..].
    injection Hctx as <-. simpl. split_and!; [done| |].
    + intros x Hreg%Map_has_true. rewrite !resolve_registry.
      by rewrite (with_Return_keeps objs _ _ _ _ _ Hwith).
    + intros f Hf. apply Map_has_true, elem_of_dom.
      fold (registry σ r').
      rewrite (with_Return_dom objs _ _ _ _ _ Hwith), elem_of_union.
      right. by apply elem_of_list_to_set, list_elem_of_fmap_2.
Qed.

(** X10 — A context made by [create] without a resolver, and derived by
    [withApi], has the abort signal that [create] made and holds exactly
    the identifiers that the factories passed produce; it resolves every
    other reference to [undefined]. *)
Theorem create_withApi h options factory ctx h' :
  options ≫= options_apis = None →
  withApi objs (create options h).1 factory (create options h).2
  = (Return ctx, h') →
  abortSignal ctx = controllers h
  ∧ ∀ x : ApiRef V,
      (registered (maps h') ctx.(apiResolver) (id x) = true
       ↔ id x ∈ produced objs (flat factory))
      ∧ (id x ∉ produced objs (flat factory) →
         resolveApi ctx x h' = undefined).
Proof.
  intros Hopt. unfold create. rewrite Hopt. unfold empty, Map_new, withApi.
  simpl.
  destruct (with_ objs _ (flat factory) _) as [[r'| |] σ] eqn:Hwith;
    [|done..].
  intros [= <- <-]. simpl. split; [done|].
  pose proof (with_Return_dom objs _ _ _ _ _ Hwith) as Hdom.
  rewrite registry_new, dom_empty_L, (left_id_L ∅ (∪)) in Hdom.
  assert (∀ k, is_Some (registry σ r' !! k)
               ↔ k ∈ produced objs (flat factory)) as Hkeys.
  { intros k. by rewrite <-elem_of_dom, Hdom, elem_of_list_to_set. }
  intros x. split.
  - unfold registered. by rewrite Map_has_true.
  - intros Hx. unfold resolveApi. rewrite resolve_registry. simpl.
    destruct (registry σ r' !! id x) eqn:Hk; [|done].
    destruct Hx. apply Hkeys. by eexists.
Qed.
End ContextFacts.

(** ** IdentityAwareFetchMiddleware *)

Section MiddlewareFacts.
Context {RequestInfo RequestInit Request TokenFunction Reason : Type}.
Variable Request_new : RequestInfo → option RequestInit → Reason + Request.
Variable headers_set : Request → string → string → Reason + Request.
Variable Request_input : Request → RequestInfo.
Implicit Types (this : IdentityAwareFetchMiddleware (TokenFunction:=TokenFunction))
  (calls : list (setter (TokenFunction:=TokenFunction))).


Lemma tokenFunction_after this calls :
  tokenFunction (foldl call this calls)
  = default (tokenFunction this) (last (token_functions calls)).
Proof.
  induction calls as [|c calls IH] using rev_ind; [done|].
  rewrite foldl_snoc. unfold token_functions in *. rewrite omap_app. simpl.
  destruct c; simpl; rewrite ?app_nil_r, ?last_snoc; done.
Qed.

(** X11 — A fetch made when the middleware is signed out passes its
    arguments to [next] untouched and awaits nothing: this is so for a new
    middleware and after any calls of which the last that signs in or out
    is [setSignedOut()] or [setSignedIn(undefined)], whatever header name
    was set. *)
Theorem apply_signed_out calls (input : RequestInfo)
    (init : option RequestInit) :
  default None (last (token_functions calls)) = None →
  apply Request_new headers_set Request_input
    (foldl call middleware_new calls) input init
  = Finished (Reason:=Reason) (Next input init).
Proof.
  intros Hlast.
  pose proof (tokenFunction_after middleware_new calls) as Htf.
  change (tokenFunction middleware_new) with (@None TokenFunction) in Htf.
  rewrite Hlast in Htf. unfold apply. by rewrite Htf.
Qed.

End MiddlewareFacts.

(** ** The test suite, and the properties at concrete inputs *)

Section TestSuite.
Import Fixtures.

(** Case analysis on membership in a list given by its elements. *)
Local Ltac elems H :=
  simpl in H;
  repeat (apply elem_of_cons in H as [->|H]);
  [..|by apply elem_of_nil in H].

Example empty_store0 : empty no_maps = (resolver0, store0).
Proof. reflexivity. Qed.

Example with_apiA :
  with_static objects [0] no_maps = (Return resolver_a, store_a).
Proof. vm_compute. reflexivity. Qed.

(** 'can start empty' *)
Example can_start_empty :
  resolve store0 resolver0 {| id := "a"; T := JUndefined |} = JUndefined.
Proof. reflexivity. Qed.

(** 'handles any arrangement of inputs' *)
Example handles_any_arrangement_of_inputs :
  forallb
    (λ p, match with_static objects p no_maps with
          | (Return r, σ) => bool_decide (resolve σ r (ref "e") = JNumber 6)
          | _ => false
          end)
    (permutations [0; 1; 2; 3; 4]) = true.
Proof. vm_compute. reflexivity. Qed.

(** 'rejects attempts to overwrite already registered things' *)
Example rejects_overwrite :
  message_of (with_ objects resolver_a [5] store_a).1
  = Some "API a was already registered".
Proof. vm_compute. reflexivity. Qed.

(** 'rejects attempts to register dangling references' *)
Example rejects_dangling :
  message_of (with_ objects resolver_a [6; 7] store_a).1
  = Some "Could not resolve API dependency in chain, c -> missing"
  ∧ message_of (with_ objects resolver_a [7; 6] store_a).1
    = Some "Could not resolve API dependency in chain, c -> missing"
  ∧ chain_of (with_ objects resolver_a [7; 6] store_a).1
    = Some ["c"; "missing"].
Proof. split_and!; vm_compute; reflexivity. Qed.

(** 'rejects circular dependencies' *)
Example rejects_circular :
  message_of (with_static objects [8; 9] no_maps).1
  = Some "Circular API dependencies: a -> b -> a"
  ∧ chain_of (with_static objects [8; 9] no_maps).1 = Some ["a"; "b"; "a"]
  ∧ chain_of (with_static objects [9; 8] no_maps).1 = Some ["b"; "a"; "b"].
Proof. split_and!; vm_compute; reflexivity. Qed.

(** 'can register entries that have dependencies on already registered
    things' *)
Example registers_on_registered :
  match with_static objects [10] no_maps with
  | (Return r1, σ1) =>
      match with_ objects r1 [11] σ1 with
      | (Return r2, σ2) =>
          resolve σ2 r2 (ref "a") = JNumber 2
          ∧ resolve σ2 r2 (ref "b") = JNumber 1
      | _ => False
      end
  | _ => False
  end.
Proof. vm_compute. done. Qed.

(** *** The arrangement batch satisfies the hypotheses of C1 *)

Lemma arrangement_distinct : NoDup (produced objects [0; 1; 2; 3; 4]).
Proof. apply (bool_decide_unpack _). vm_compute. exact I. Qed.

Lemma arrangement_fresh : fresh objects store0 resolver0 [0; 1; 2; 3; 4].
Proof. intros f Hf. elems Hf; reflexivity. Qed.

Lemma arrangement_satisfiable :
  satisfiable objects store0 resolver0 [0; 1; 2; 3; 4].
Proof.
  intros f d Hf Hd. right.
  elems Hf; elems Hd; apply (bool_decide_unpack _); vm_compute; exact I.
Qed.

Lemma arrangement_acyclic :
  acyclic objects store0 resolver0 [0; 1; 2; 3; 4].
Proof.
  exists arrangement_rank. intros f d Hf Hd _.
  elems Hf; elems Hd; vm_compute; lia.
Qed.

Lemma arrangement_canonical :
  canonical objects store0 resolver0 [0; 1; 2; 3; 4] arrangement_values.
Proof. intros f Hf. elems Hf; vm_compute; reflexivity. Qed.

Lemma with_any_arrangement_witness :
  ∃ r' σ',
    with_ objects resolver0 [4; 2; 0; 3; 1] store0 = (Return r', σ')
    ∧ resolve σ' r' (ref "e") = JNumber 6.
Proof.
  destruct (with_any_arrangement objects store0 resolver0
              [0; 1; 2; 3; 4] [4; 2; 0; 3; 1] arrangement_values
              arrangement_distinct arrangement_fresh arrangement_satisfiable
              arrangement_acyclic arrangement_canonical)
    as (r' & σ' & Hwith & Hvalues).
  - apply (bool_decide_unpack _). vm_compute. exact I.
  - exists r', σ'. split; [exact Hwith|].
    apply (Hvalues 4). apply (bool_decide_unpack _). vm_compute. exact I.
Defined.

(** C1 as stated fails.  A batch may be acyclic, with every dependency
    satisfied, and still produce an identifier that the resolver holds:
    [resolver_a.with([apiA2])] throws.  And when two factories of the
    batch produce the same identifier, on which nothing depends, the
    resolved value depends on the arrangement. *)
Lemma with_arrangement_needs_fresh_distinct_ids :
  (satisfiable objects store_a resolver_a [5]
   ∧ acyclic objects store_a resolver_a [5]
   ∧ (with_ objects resolver_a [5] store_a).1
     = Throw (DuplicateRegistration "a"))
  ∧ (satisfiable objects store0 resolver0 [0; 5]
     ∧ acyclic objects store0 resolver0 [0; 5]
     ∧ [0; 5] ≡ₚ [5; 0]
     ∧ with_ objects resolver0 [0; 5] store0
       = (Return resolver_a, [∅; {["a" := JNumber 2]}])
     ∧ with_ objects resolver0 [5; 0] store0
       = (Return resolver_a, [∅; {["a" := JNumber 1]}])).
Proof.
  split; split_and!.
  - intros f d Hf Hd. elems Hf. elems Hd.
  - exists (λ _, 0). intros f d Hf Hd. elems Hf. elems Hd.
  - vm_compute. reflexivity.
  - intros f d Hf Hd. elems Hf; elems Hd.
  - exists (λ _, 0). intros f d Hf Hd. elems Hf; elems Hd.
  - apply (bool_decide_unpack _). vm_compute. exact I.
  - vm_compute. reflexivity.
  - vm_compute. reflexivity.
Qed.

(** C2 — the code neither rejects a batch in which two factories produce
    the same identifier nor keeps the first value: both factories are
    instantiated and the later one overwrites the earlier one. *)
Theorem with_overwrites_within_batch :
  with_static objects [0; 5] no_maps
  = (Return resolver_a, [∅; {["a" := JNumber 2]}])
  ∧ with_static objects [5; 0] no_maps
    = (Return resolver_a, [∅; {["a" := JNumber 1]}])
  ∧ foldl (instantiate objects 1) [∅; ∅] [0]
    = [∅; {["a" := JNumber 1]}]
  ∧ foldl (instantiate objects 1) [∅; ∅] [0; 5]
    = [∅; {["a" := JNumber 2]}].
Proof. split_and!; vm_compute; reflexivity. Qed.

(** C3 as stated fails: when a factory with a missing dependency comes
    before the factory whose identifier is already registered, the error
    is the missing dependency. *)
Lemma with_registered_after_dangling :
  registered store_a resolver_a (api_id objects 5) = true
  ∧ with_ objects resolver_a [7; 5] store_a
    = (Throw (MissingDependency ["c"] "missing"), store_a ++ [{["a" := JNumber 1]}]).
Proof. split; vm_compute; reflexivity. Qed.

Lemma with_rejects_registered_witness :
  with_ objects resolver_a [6; 5; 7] store_a
  = (Throw (DuplicateRegistration "a"),
     store_a ++ [registry store_a resolver_a]).
Proof.
  destruct (with_rejects_registered objects store_a resolver_a
              [6; 5; 7] [6] 5 [7]) as (e & Hwith & [[-> _]|[Hthrow _]]).
  - reflexivity.
  - reflexivity.
  - intros f Hf. elems Hf. reflexivity.
  - exact Hwith.
  - vm_compute in Hthrow. discriminate Hthrow.
Defined.

(** C4 as stated fails: when a factory whose identifier is already
    registered comes before the factory with the missing dependency, the
    error is the duplicate registration. *)
Lemma with_dangling_after_registered :
  dangling objects store_a resolver_a [5; 7] 7 "missing"
  ∧ with_ objects resolver_a [5; 7] store_a
    = (Throw (DuplicateRegistration "a"), store_a ++ [{["a" := JNumber 1]}]).
Proof.
  split; [|vm_compute; reflexivity].
  split_and!; [|by left|reflexivity|];
    apply (bool_decide_unpack _); vm_compute; exact I.
Qed.

Lemma danglingC_dangling :
  dangling objects store_a resolver_a [6; 7] 7 "missing".
Proof.
  split_and!; [|by left|reflexivity|];
    apply (bool_decide_unpack _); vm_compute; exact I.
Qed.

Lemma dangling_batch_fresh : fresh objects store_a resolver_a [6; 7].
Proof. intros f Hf. elems Hf; reflexivity. Qed.

Lemma dangling_batch_acyclic : acyclic objects store_a resolver_a [6; 7].
Proof.
  exists (λ i, if bool_decide (i = "missing") then 0 else 1).
  intros f d Hf Hd Hreg. elems Hf; elems Hd; [done|vm_compute; lia].
Qed.

Lemma dangling_batch_only g d' :
  dangling objects store_a resolver_a [6; 7] g d' →
  g = 7 ∧ d' = "missing".
Proof. intros (Hg & Hd & Hreg & _). elems Hg; elems Hd; done. Qed.

Lemma dangling_batch_unrelated g :
  g ∈ [6; 7] → api_id objects 7 ∉ dep_ids objects g.
Proof.
  intros Hg. elems Hg; apply (bool_decide_unpack _); vm_compute; exact I.
Qed.

Lemma with_rejects_dangling_witness :
  with_ objects resolver_a [7; 6] store_a
  = (Throw (MissingDependency ["c"] "missing"),
     store_a ++ [registry store_a resolver_a]).
Proof.
  destruct (with_rejects_dangling objects store_a resolver_a
              [6; 7] [7; 6] 7 "missing" danglingC_dangling)
    as (e & Hwith & Herror).
  - apply (bool_decide_unpack _). vm_compute. exact I.
  - destruct (Herror dangling_batch_fresh dangling_batch_acyclic)
      as [_ Hexact].
    rewrite (Hexact dangling_batch_only dangling_batch_unrelated) in Hwith.
    exact Hwith.
Defined.


(** Why [b] has to be the factory that the batch resolves to: when other
    factories that produce [a] and [b] come first, [circA] and [circB]
    are placed on top of those and [with] returns. *)
Example with_mutual_shadowed :
  8 ∈ [0; 10; 8; 9] ∧ 9 ∈ [0; 10; 8; 9]
  ∧ find (λ f, bool_decide (api_id objects f = api_id objects 9))
      [0; 10; 8; 9] = Some 10
  ∧ with_ objects resolver0 [0; 10; 8; 9] store0
    = (Return {| apis := 1 |},
       [∅; {["a" := JNumber 1; "b" := JNumber 2]}]).
Proof.
  split_and!; try (vm_compute; reflexivity);
    apply (bool_decide_unpack _); vm_compute; exact I.
Qed.



Lemma with_leaves_receiver_unchanged_witness :
  registry (with_ objects resolver_a [10; 5] store_a).2 resolver_a
  = registry store_a resolver_a
  ∧ resolve (with_ objects resolver_a [10; 5] store_a).2 resolver_a (ref "b")
    = resolve store_a resolver_a (ref "b")
  ∧ registry (with_ objects resolver_a [10] store_a).2 resolver_a
    = registry store_a resolver_a
  ∧ resolve (with_ objects resolver_a [10] store_a).2 resolver_a (ref "b")
    = resolve store_a resolver_a (ref "b").
Proof.
  assert (valid store_a resolver_a) as Hvalid
    by (unfold valid; simpl; lia).
  destruct (with_leaves_receiver_unchanged objects store_a resolver_a
              [10; 5] (ref "b") Hvalid) as (H1 & H2 & _).
  destruct (with_leaves_receiver_unchanged objects store_a resolver_a
              [10] (ref "b") Hvalid) as (H3 & H4 & _).
  split_and!; assumption.
Defined.

(** C7 as stated fails: [with([])] returns a resolver with the registry
    of its receiver. *)
Lemma with_nothing_does_not_grow :
  with_ objects resolver_a [] store_a
  = (Return {| apis := 2 |}, store_a ++ [{["a" := JNumber 1]}])
  ∧ registry (store_a ++ [{["a" := JNumber 1]}]) {| apis := 2 |}
    = registry store_a resolver_a
  ∧ ¬ (registry store_a resolver_a
       ⊂ registry (store_a ++ [{["a" := JNumber 1]}]) {| apis := 2 |}).
Proof.
  split_and!; [vm_compute; reflexivity..|].
  intros [_ Hnot]. apply Hnot. done.
Qed.

Lemma with_grows_witness :
  ∃ r' σ', with_ objects resolver_a [1] store_a = (Return r', σ')
    ∧ registry store_a resolver_a ⊂ registry σ' r'
    ∧ size (registry store_a resolver_a) < size (registry σ' r').
Proof.
  destruct (with_grows objects store_a resolver_a [1])
    as [[e He]|(r' & σ' & Hwith & _ & Hgrows)].
  - vm_compute in He. discriminate He.
  - exists r', σ'. split; [exact Hwith|]. apply Hgrows. discriminate.
Defined.

(** C8 as stated fails: [incrA] depends only on what [incrB] produces
    and [incrB] has no dependencies, but over a resolver that holds [a]
    already neither way returns a resolver: both throw. *)
Lemma with_incremental_needs_fresh_ids :
  dep_ids objects 11 ≠ []
  ∧ (∀ d, d ∈ dep_ids objects 11 → d = api_id objects 10)
  ∧ (∀ d, d ∈ dep_ids objects 10 → registered store_a resolver_a d = true)
  ∧ (match with_ objects resolver_a [10] store_a with
     | (Return r1, σ1) => with_ objects r1 [11] σ1
     | failed => failed
     end).1 = Throw (DuplicateRegistration "a")
  ∧ with_ objects resolver_a [11; 10] store_a
    = (Throw (DuplicateRegistration "a"),
       store_a ++ [registry store_a resolver_a]).
Proof.
  split_and!; [discriminate| | |vm_compute; reflexivity..].
  - intros d Hd. by elems Hd.
  - intros d Hd. elems Hd.
Qed.

Lemma with_incremental_witness :
  ∃ r2 σ2 r' σ',
    match with_ objects resolver0 [10] store0 with
    | (Return r1, σ1) => with_ objects r1 [11] σ1
    | failed => failed
    end = (Return r2, σ2)
    ∧ with_ objects resolver0 [11; 10] store0 = (Return r', σ')
    ∧ registry σ2 r2 = registry σ' r'
    ∧ ∀ x : ApiRef jsval, resolve σ2 r2 x = resolve σ' r' x.
Proof.
  apply (with_incremental objects store0 resolver0 11 10).
  - discriminate.
  - intros d Hd. by elems Hd.
  - intros d Hd. elems Hd.
  - reflexivity.
  - reflexivity.
  - discriminate.
Defined.

Lemma with_terminates_witness :
  with_fuel objects 5 resolver0 [4; 3; 2; 1; 0; 4] store0
  = with_ objects resolver0 [4; 3; 2; 1; 0; 4] store0
  ∧ ((∃ r', (with_ objects resolver0 [4; 3; 2; 1; 0; 4] store0).1
            = Return r')
     ∨ (∃ e, (with_ objects resolver0 [4; 3; 2; 1; 0; 4] store0).1
             = Throw e)).
Proof.
  apply (with_terminates objects store0 resolver0 [4; 3; 2; 1; 0; 4] 5).
  vm_compute. lia.
Defined.

Lemma resolve_keyed_by_id_witness :
  resolve store_a resolver_a (ref "a")
  = resolve store_a resolver_a {| id := "a"; T := JNumber 7 |}
  ∧ (Map_has store_a resolver_a.(apis) "a" = false →
     resolve store_a resolver_a (ref "a") = undefined)
  ∧ (∀ σ0, resolve (empty σ0).2 (empty σ0).1 (ref "a") = undefined).
Proof.
  apply (resolve_keyed_by_id store_a resolver_a
           (ref "a") {| id := "a"; T := JNumber 7 |}).
  reflexivity.
Defined.

(** *** The further properties at concrete inputs *)

Lemma with_adds_produced_witness :
  (registered [∅; {["a" := JNumber 1]}; {["a" := JNumber 1; "b" := JNumber 2]}]
     {| apis := 2 |} "b" = true
   ↔ registered store_a resolver_a "b" = true ∨ "b" ∈ produced objects [1])
  ∧ (registered store_a resolver_a "b" = true →
     resolve [∅; {["a" := JNumber 1]}; {["a" := JNumber 1; "b" := JNumber 2]}]
       {| apis := 2 |} (ref "b")
     = resolve store_a resolver_a (ref "b")).
Proof.
  apply (with_adds_produced objects store_a resolver_a [1] _ _
           (ltac:(vm_compute; reflexivity)) (ref "b")).
Defined.

Lemma with_Throw_sound_witness :
  dep_chain objects [8; 9] (["a"; "b"] ++ ["a"]) ∧ NoDup ["a"; "b"]
  ∧ "a" ∈ ["a"; "b"]
  ∧ (∀ s, s ∈ ["a"; "b"] → registered store0 resolver0 s = false).
Proof.
  apply (with_Throw_sound objects store0 resolver0 [8; 9]
           (CircularDependency ["a"; "b"] "a")).
  vm_compute. reflexivity.
Defined.

Lemma with_returns_iff_witness :
  (∃ r' σ', with_ objects resolver0 [0; 1; 2; 3; 4] store0 = (Return r', σ'))
  ↔ fresh objects store0 resolver0 [0; 1; 2; 3; 4]
    ∧ satisfiable objects store0 resolver0 [0; 1; 2; 3; 4]
    ∧ acyclic objects store0 resolver0 [0; 1; 2; 3; 4].
Proof.
  apply (with_returns_iff objects store0 resolver0 [0; 1; 2; 3; 4]).
  apply (bool_decide_unpack _). vm_compute. exact I.
Defined.

Lemma with_permutation_witness :
  with_ objects resolver0 [3; 1; 4; 0; 2] store0
  = with_ objects resolver0 [0; 1; 2; 3; 4] store0.
Proof.
  destruct (with_permutation objects store0 resolver0
              [0; 1; 2; 3; 4] [3; 1; 4; 0; 2]) as [Hsame _].
  - apply (bool_decide_unpack _). vm_compute. exact I.
  - apply (bool_decide_unpack _). vm_compute. exact I.
  - apply Hsame. vm_compute. reflexivity.
Defined.

Lemma with_with_witness :
  ∃ r' σ', with_ objects resolver0 ([10] ++ [11]) store0 = (Return r', σ')
    ∧ registry σ' r'
      = registry [∅; {["b" := JNumber 1]};
                  {["b" := JNumber 1; "a" := JNumber 2]}] {| apis := 2 |}.
Proof.
  refine (proj1 (with_with objects store0 resolver0 [10] [11]
                   {| apis := 1 |} [∅; {["b" := JNumber 1]}] _ _) _ _ _).
  - apply (bool_decide_unpack _). vm_compute. exact I.
  - vm_compute. reflexivity.
  - vm_compute. reflexivity.
Defined.

Lemma with_repeated_witness :
  with_ objects resolver0 ([1; 0] ++ [1]) store0
  = with_ objects resolver0 [1; 0] store0.
Proof.
  apply (with_repeated objects store0 resolver0 [1; 0] 1). by left.
Defined.

Lemma with_static_dom_witness :
  dom (registry [∅; {["a" := JNumber 1; "b" := JNumber 2]}] {| apis := 1 |})
  = list_to_set (produced objects [1; 0]).
Proof.
  apply (with_static_dom objects no_maps [1; 0]).
  vm_compute. reflexivity.
Defined.

Lemma with_resolves_witness :
  ∃ r' σ',
    with_ objects resolver0 [4; 3; 2; 1; 0] store0 = (Return r', σ')
    ∧ registered σ' r' "e" = true
    ∧ resolve σ' r' (ref "e")
      = js_add (resolve σ' r' (ref "c")) (resolve σ' r' (ref "d")).
Proof.
  destruct (with_ objects resolver0 [4; 3; 2; 1; 0] store0)
    as [[r'| |] σ'] eqn:Hwith;
    [|vm_compute in Hwith; discriminate Hwith..].
  exists r', σ'. split; [reflexivity|].
  refine (with_resolves objects store0 resolver0 [4; 3; 2; 1; 0] r' σ'
            _ Hwith 4 _).
  - apply (bool_decide_unpack _). vm_compute. exact I.
  - by left.
Defined.
End TestSuite.

Section MoreTests.
Import Fixtures MoreFixtures.

Lemma withApi_derives_witness :
  (∀ x : ApiRef jsval,
     resolveApi context_a x (withApi objects context_a (One 1) heap_a).2
     = resolveApi context_a x heap_a)
  ∧ controllers (withApi objects context_a (One 1) heap_a).2 = 1
  ∧ ∀ ctx, (withApi objects context_a (One 1) heap_a).1 = Return ctx →
      abortSignal ctx = 0
      ∧ (∀ x : ApiRef jsval,
           registered store_a resolver_a (id x) = true →
           resolveApi ctx x (withApi objects context_a (One 1) heap_a).2
           = resolveApi context_a x heap_a)
      ∧ (∀ f, f ∈ [1] →
           registered (maps (withApi objects context_a (One 1) heap_a).2)
             ctx.(apiResolver) (api_id objects f) = true).
Proof.
  apply (withApi_derives objects heap_a context_a (One 1)).
  unfold valid. simpl. lia.
Defined.

Lemma create_withApi_witness :
  ∃ ctx h',
    withApi objects (create None heap0).1 (Many [1; 0]) (create None heap0).2
    = (Return ctx, h')
    ∧ abortSignal ctx = 0
    ∧ (registered (maps h') ctx.(apiResolver) "b" = true
       ↔ "b" ∈ produced objects [1; 0])
    ∧ ("c" ∉ produced objects [1; 0] →
       resolveApi ctx (ref "c") h' = JUndefined).
Proof.
  destruct (withApi objects (create None heap0).1 (Many [1; 0])
              (create None heap0).2) as [[ctx| |] h'] eqn:Hwith;
    [|vm_compute in Hwith; discriminate Hwith..].
  exists ctx, h'. split; [reflexivity|].
  destruct (create_withApi objects heap0 None (Many [1; 0]) ctx h'
              eq_refl Hwith) as [Hsignal Hkeys].
  split; [exact Hsignal|].
  split; [apply (Hkeys (ref "b"))|apply (Hkeys (ref "c"))].
Defined.

Lemma apply_signed_out_witness :
  apply (Reason:=string) request_new request_headers_set OfRequest
    (foldl call middleware_new
       [SetSignedIn (Some 7); SetHeaderName "x-token"; SetSignedOut])
    (Url "/api") None
  = Finished (Next (Url "/api") None).
Proof.
  apply (apply_signed_out request_new request_headers_set OfRequest
           [SetSignedIn (Some 7); SetHeaderName "x-token"; SetSignedOut]).
  reflexivity.
Defined.


(** The request itself may be refused. *)
Example apply_invalid_url :
  ∃ resume,
    apply (Reason:=string) request_new request_headers_set OfRequest
      (foldl call middleware_new [SetSignedIn (Some 7)]) (Url "http://") None
    = Awaiting 7 resume
    ∧ resume (Fulfilled (Some "t0k3n"))
        (foldl call middleware_new [SetSignedIn (Some 7)])
      = Rejects "TypeError: Invalid URL".
Proof. eexists. split; reflexivity. Qed.
End MoreTests.
